(** * ezre: regular expressions assembled from named sub-expressions

    A shallow embedding of [hpat/ezre/__init__.py] and the properties of
    its three components: [Cardinality] (repetition bounds and their
    quantifier text), [Label] (display names) and [Ezre] (the expression
    nodes, which are Python objects with identity and live in a store).

    Conventions of the embedding.
    - A Python [str] is a [string]; each [ascii] stands for one code point
      below 256, so [String.length] is [len] and [String.compare] is the
      code-point order of [str].
    - A Python [int] is a [Z]; [float("inf")] is the constructor [oo].
    - Floats other than [oo], [bool] and user classes are outside the
      universe [pyobj] of argument values. *)

From Stdlib Require Import ZArith String Ascii List DecimalString Permutation Sorted Lia.
From Stdlib Require DecimalZ DecimalPos.
From stdpp Require Import gmap strings list.

Local Open Scope string_scope.
Local Open Scope list_scope.
Local Open Scope Z_scope.

(** ** Python values and exceptions *)

(** [MinMax = Literal[min] | Literal[max]]: the two builtins used as the
    greediness flag. *)
Inductive MinMax := py_min | py_max.

(** [CompleteIN = int | Literal[+oo]]. *)
Inductive CompleteIN := Fin (n : Z) | oo.

(** The attributes a [Cardinality] instance ends up with. *)
Record Cardinality := mkCardinality {
  _str : string;
  start : Z;
  stop : CompleteIN;
  step : MinMax
}.

Inductive pyobj :=
| PyNone
| PyInt (n : Z)
| PyStr (s : string)
| PyBuiltin (f : MinMax)
| PySlice (a b c : pyobj)
| PyCardinality (c : Cardinality).

(** The raise statements of the module and the failures of the builtins
    it calls, one constructor per message. *)
Inductive message :=
| step_not_in_MinMax          (* f"{step=} not in {MinMax}" *)
| range_must_hold             (* f"0 <= {start=} <= {stop=} must hold" *)
| step_cannot_be_used         (* f"{step=} cannot be used when {start=} == {stop=}" *)
| invalid_literal_for_int     (* raised by int() on a str *)
| int_argument_must_be        (* raised by int() on a non-number *)
| slice_expected_arguments    (* raised by slice() on 0 or more than 3 arguments *)
| type_cardinality.           (* f"{(type(cardinality) == int | slice)=}" *)

Inductive exn :=
| IndexError (m : message)
| ValueError (m : message)
| TypeError (m : message)
| DanglingReference.
(** [DanglingReference] is no Python exception: it is the answer of the
    embedding when a location does not name an object of the store, which
    no Python program can make happen. *)

Inductive exn_class := IndexError_class | ValueError_class | TypeError_class | no_class.

Definition class_of (e : exn) : exn_class :=
  match e with
  | IndexError _ => IndexError_class
  | ValueError _ => ValueError_class
  | TypeError _ => TypeError_class
  | DanglingReference => no_class
  end.

Definition result (A : Type) : Type := exn + A.
Definition OK {A} (a : A) : result A := inr a.
Definition raise {A} (e : exn) : result A := inl e.

Definition rbind {A B} (r : result A) (k : A -> result B) : result B :=
  match r with
  | inl e => inl e
  | inr a => k a
  end.

#[global] Instance result_fmap : FMap result :=
  fun A B f r => match r with inl e => inl e | inr a => inr (f a) end.

Notation "'try' x <- r ; k" := (rbind r (fun x => k))
  (at level 10, x pattern, r at level 100, k at level 200).

(** The three raise statements of [Cardinality.__init__], under the names
    the specification gives to the failures of [make]. *)
Definition StepError : exn := IndexError step_not_in_MinMax.
Definition RangeError : exn := IndexError range_must_hold.
Definition GreedinessError : exn := ValueError step_cannot_be_used.

#[global] Instance MinMax_eq_dec : EqDecision MinMax.
Proof. solve_decision. Defined.
#[global] Instance CompleteIN_eq_dec : EqDecision CompleteIN.
Proof. solve_decision. Defined.
#[global] Instance Cardinality_eq_dec : EqDecision Cardinality.
Proof. solve_decision. Defined.
#[global] Instance message_eq_dec : EqDecision message.
Proof. solve_decision. Defined.
#[global] Instance exn_eq_dec : EqDecision exn.
Proof. solve_decision. Defined.
#[global] Instance exn_class_eq_dec : EqDecision exn_class.
Proof. solve_decision. Defined.

(** ** The builtins [int], [str] and [slice] *)

Module Builtins.

(** [str(n)] for an [int]. *)
Definition str_int (n : Z) : string := NilZero.string_of_int (Z.to_int n).

(** [f"{stop}"] for a [CompleteIN]. *)
Definition str_CompleteIN (n : CompleteIN) : string :=
  match n with
  | Fin n => str_int n
  | oo => "inf"
  end.

(** White space as [int] strips it from a [str], on code points below 256. *)
Definition is_space (c : ascii) : bool :=
  let n := N_of_ascii c in
  ((9 <=? n) && (n <=? 13) || (28 <=? n) && (n <=? 32) || (n =? 133) || (n =? 160))%N.

Definition digit_of (c : ascii) : option Z :=
  let n := Z.of_N (N_of_ascii c) in
  if (48 <=? n) && (n <=? 57) then Some (n - 48) else None.

Fixpoint lstrip (s : list ascii) : list ascii :=
  match s with
  | c :: s' => if is_space c then lstrip s' else s
  | [] => []
  end.

Definition strip (s : list ascii) : list ascii :=
  rev (lstrip (rev (lstrip s))).

(** Decimal digits with single underscores between them; [sep] tells
    that the previous character was an underscore. *)
Fixpoint digits (acc : Z) (sep : bool) (s : list ascii) : option Z :=
  match s with
  | [] => if sep then None else Some acc
  | c :: s' =>
      match digit_of c with
      | Some d => digits (10 * acc + d) false s'
      | None =>
          if Ascii.eqb c "_" then (if sep then None else digits acc true s')
          else None
      end
  end.

Definition unsigned (s : list ascii) : option Z :=
  match s with
  | c :: _ => match digit_of c with Some _ => digits 0 false s | None => None end
  | [] => None
  end.

(** [int(s)] for a [str]: optional white space around an optional sign
    and a decimal literal. The bound that recent interpreters put on the
    number of digits ([sys.int_max_str_digits]) is left out. *)
Definition int_of_str (s : string) : option Z :=
  match strip (list_ascii_of_string s) with
  | c :: s' =>
      if Ascii.eqb c "-" then Z.opp <$> unsigned s'
      else if Ascii.eqb c "+" then unsigned s'
      else unsigned (c :: s')
  | [] => None
  end.

(** [int(x)]. *)
Definition int (x : pyobj) : result Z :=
  match x with
  | PyInt n => OK n
  | PyStr s =>
      match int_of_str s with
      | Some n => OK n
      | None => raise (ValueError invalid_literal_for_int)
      end
  | _ => raise (TypeError int_argument_must_be)
  end.

(** [slice] applied to the unpacked [slice_args], as its three attributes. *)
Definition slice (slice_args : list pyobj) : result (pyobj * pyobj * pyobj) :=
  match slice_args with
  | [b] => OK (PyNone, b, PyNone)
  | [a; b] => OK (a, b, PyNone)
  | [a; b; c] => OK (a, b, c)
  | _ => raise (TypeError slice_expected_arguments)
  end.

(** [sep.join(l)]. *)
Definition join (sep : string) (l : list string) : string := String.concat sep l.

End Builtins.

(** ** Cardinality *)

Module CardinalityImpl.
Import Builtins.

Definition is_None (x : pyobj) : bool :=
  match x with PyNone => true | _ => false end.

(** [step in (min, max)], with the builtin it is when it is one. *)
Definition as_MinMax (x : pyobj) : option MinMax :=
  match x with PyBuiltin f => Some f | _ => None end.

(** [a <= b] where [b] may be [+oo]. *)
Definition le_CompleteIN (a : Z) (b : CompleteIN) : bool :=
  match b with Fin n => a <=? n | oo => true end.

(** [a == b] where [b] may be [+oo]. *)
Definition eq_CompleteIN (a : Z) (b : CompleteIN) : bool :=
  match b with Fin n => a =? n | oo => false end.

Definition is_oo (b : CompleteIN) : bool :=
  match b with oo => true | Fin _ => false end.

Definition is_min (f : MinMax) : bool :=
  match f with py_min => true | py_max => false end.

(** The quantifier chosen by the "actual work" branches. *)
Definition quantifier (start : Z) (stop : CompleteIN) : string :=
  if start =? 0 then
    if eq_CompleteIN 1 stop then "?"
    else if is_oo stop then "*"
    else "{," +:+ str_CompleteIN stop +:+ "}"
  else if start =? 1 then
    if eq_CompleteIN 1 stop then ""
    else if is_oo stop then "+"
    else "{" +:+ str_int start +:+ "," +:+ str_CompleteIN stop +:+ "}"
  else
    if eq_CompleteIN start stop then "{" +:+ str_int start +:+ "}"
    else if is_oo stop then "{" +:+ str_int start +:+ ",}"
    else "{" +:+ str_int start +:+ "," +:+ str_CompleteIN stop +:+ "}".

(** The "non-greedy option" applied after the branches. *)
Definition non_greedy_option (start : Z) (stop : CompleteIN) (step : MinMax) : string :=
  if negb (eq_CompleteIN start stop) && is_min step then "?" else "".

(** [start: int = 0 if start is None else int(start)] *)
Definition typed_start (start : pyobj) : result Z :=
  if is_None start then OK 0 else int start.

(** [stop: CompleteIN = +oo if stop is None else int(stop)] *)
Definition typed_stop (stop : pyobj) : result CompleteIN :=
  if is_None stop then OK oo else try n <- int stop; OK (Fin n).

(** [step: MinMax = max if step is None else step] *)
Definition typed_step (step : pyobj) : pyobj :=
  if is_None step then PyBuiltin py_max else step.

(** [Cardinality.__init__(self, *slice_args)]. *)
Definition __init__ (slice_args : list pyobj) : result Cardinality :=
  try (start, stop, step) <- slice slice_args;
  try start <- typed_start start;
  try stop <- typed_stop stop;
  match as_MinMax (typed_step step) with
  | None => raise StepError
  | Some step =>
      if negb ((0 <=? start) && le_CompleteIN start stop) then raise RangeError
      else if eq_CompleteIN start stop && is_min step then raise GreedinessError
      else
        OK {| _str := quantifier start stop +:+ non_greedy_option start stop step;
              start := start; stop := stop; step := step |}
  end.

(** [Cardinality.__str__]. *)
Definition __str__ (self : Cardinality) : string := _str self.

(** [Cardinality.__eq__(self, other)]. *)
Definition __eq__ (self : Cardinality) (other : pyobj) : bool :=
  match other with
  | PyCardinality other => bool_decide (__str__ self = __str__ other)
  | _ => false
  end.

End CardinalityImpl.

(** [class CARDINALITY]: the shortcuts, as the constructions
    [Cardinality(1, 1)], [Cardinality(1, None)], [Cardinality(None)] and
    [Cardinality(1)] leave them when the module is loaded (see
    [One_built] and the three examples after it). *)
Module CARDINALITY.
Definition One : Cardinality :=
  {| _str := ""; start := 1; stop := Fin 1; step := py_max |}.
Definition Many : Cardinality :=
  {| _str := "+"; start := 1; stop := oo; step := py_max |}.
Definition Any : Cardinality :=
  {| _str := "*"; start := 0; stop := oo; step := py_max |}.
Definition Maybe : Cardinality :=
  {| _str := "?"; start := 0; stop := Fin 1; step := py_max |}.
End CARDINALITY.

(** ** Label *)

(** A [Label] wraps a display name ([Var], a [str] shown without quotes),
    a [Label.And] or a [Label.Or]; labels are never mutated, so they are
    embedded by value. *)
#[warnings="-register-all"]
Inductive Label :=
| Var (name : string)
| LabelAnd (_items : list Label)
| LabelOr (_items : list Label).

Module LabelImpl.
Import Builtins.

(** [Label.__add__] *)
Definition __add__ (self other : Label) : Label := LabelAnd [self; other].

(** [Label.__or__] *)
Definition __or__ (self other : Label) : Label := LabelOr [self; other].

(** [Label.__repr__], through [Label.And.__repr__] and [Label.Or.__repr__]. *)
Fixpoint __repr__ (self : Label) : string :=
  match self with
  | Var name => name
  | LabelAnd _items => join "" (List.map __repr__ _items)
  | LabelOr _items =>
      let free := join "|" (List.map __repr__ _items) in
      if (1 <? length _items)%nat then "(" +:+ free +:+ ")" else free
  end.

End LabelImpl.

(** ** The store of [Ezre] objects *)

(** An [Ezre] object is named by its location in the store. *)
Abbreviation loc := nat (only parsing).

(** The [expr] of a node: a [str], an [Ezre.And] or an [Ezre.Or]. The two
    composite objects keep the tuple of their items and the text computed
    when they were built; they are never mutated, so they are embedded by
    value and sharing one of them is holding an equal value. *)
Inductive Expr :=
| Str (s : string)
| And (_items : list loc) (_re : string)
| Or (_items : list loc) (_re : string).

Record Ezre := mkEzre {
  _id : nat;
  _label : Label;
  _expr : Expr;
  _cardinality : Cardinality;
  _re : string
}.

(** The objects ever built, by location, and the class attribute
    [Ezre._instances]. The registry holds its values weakly; the embedding
    is of a program that keeps its nodes, so no entry disappears. It only
    feeds the default label of a node. *)
Record store := mkStore {
  objects : list Ezre;
  _instances : gmap nat loc
}.

(** Computations on the store that may raise: what has been written
    before an exception stays written. *)
Definition M (A : Type) : Type := store -> result A * store.

Definition ret {A} (a : A) : M A := fun st => (OK a, st).

Definition bind {A B} (m : M A) (k : A -> M B) : M B :=
  fun st =>
    match m st with
    | (inl e, st') => (inl e, st')
    | (inr a, st') => k a st'
    end.

Definition lift {A} (r : result A) : M A := fun st => (r, st).

Notation "'do' x <- m ; k" := (bind m (fun x => k))
  (at level 10, x pattern, m at level 100, k at level 200).

(** Reading an object through a reference. *)
Definition deref (l : loc) : M Ezre :=
  fun st =>
    match objects st !! l with
    | Some o => (OK o, st)
    | None => (raise DanglingReference, st)
    end.

(** [map(f, items)] consumed from left to right. *)
Fixpoint mapM {A B} (f : A -> M B) (items : list A) : M (list B) :=
  match items with
  | [] => ret []
  | x :: items =>
      do y <- f x;
      do ys <- mapM f items;
      ret (y :: ys)
  end.

(** The [label] argument of [Ezre.__init__] and [Ezre.as_]. *)
Inductive label_arg :=
| LStr (s : string)
| LLabel (l : Label).

(** ** The builtins [re.escape], [set] and [sorted] *)

Module re.

(** The keys of [re._special_chars_map]. *)
Definition _special_chars : list ascii :=
  list_ascii_of_string "()[]{}?*+-|^$\.&~# "
  ++ List.map ascii_of_nat [9; 10; 13; 11; 12]%nat.

(** [re.escape(pattern)] for a [str]. *)
Fixpoint escape (pattern : string) : string :=
  match pattern with
  | EmptyString => EmptyString
  | String c pattern =>
      if bool_decide (c ∈ _special_chars)
      then String "\" (String c (escape pattern))
      else String c (escape pattern)
  end.

End re.

Module Sorting.

(** [k1 < k2] on the tuples that [Ezre.string_key] returns. *)
Definition key_lt (k1 k2 : Z * string) : bool :=
  (k1.1 <? k2.1) || ((k1.1 =? k2.1) && String.ltb k1.2 k2.2).

Section sorted.
Context {A : Type} (key : A -> Z * string).

(** Stable insertion: [x] comes from the left of [l] in the input. *)
Fixpoint insert (x : A) (l : list A) : list A :=
  match l with
  | [] => [x]
  | y :: l' => if key_lt (key y) (key x) then y :: insert x l' else x :: y :: l'
  end.

(** [sorted(l, key=key)]: a stable sort that compares keys with [<]. *)
Definition sorted (l : list A) : list A := foldr insert [] l.
End sorted.

(** [set(l)] as the list its iteration yields: the distinct elements.
    Python fixes no iteration order; [sorted_enumeration] below shows
    that the order does not reach the result of [from_sequence]. *)
Definition set (l : list string) : list string := remove_dups l.

End Sorting.

(** ** Ezre *)

(** [class EZRE]: the two anchors are the first two objects built when
    the module is loaded (see [module_loaded]), so these are their
    locations in every store. *)
Module EZRE.
Definition Begin : loc := 0%nat.
Definition End : loc := 1%nat.
End EZRE.

Module EzreImpl.
Import Builtins.

(** [Ezre.get_re = operator.attrgetter("re")] on a node. *)
Definition get_re (item : loc) : M string :=
  do o <- deref item; ret (_re o).

(** [Ezre.And.__init__] *)
Definition And__init__ (items : list loc) : M Expr :=
  do res <- mapM get_re items;
  ret (And items (join "" res)).

(** [Ezre.Or.__init__] *)
Definition Or__init__ (items : list loc) : M Expr :=
  do res <- mapM get_re items;
  let re_ := join "|" res in
  let re_ := if (1 <? length items)%nat then "(" +:+ re_ +:+ ")" else re_ in
  ret (Or items re_).

(** The [re] property of an [expr] that is not a [str]. *)
Definition expr_re (expr : Expr) : string :=
  match expr with
  | Str s => s
  | And _ re_ => re_
  | Or _ re_ => re_
  end.

(** The label that [Ezre.as_] stores. *)
Definition as_label (label : label_arg) : Label :=
  match label with
  | LStr s => Var s
  | LLabel l => l
  end.

(** [label or f"#{self._id}"]: an empty [str] is false, a [Label] is not. *)
Definition label_or (label : option label_arg) (_id : nat) : label_arg :=
  match label with
  | None => LStr ("#" +:+ str_int (Z.of_nat _id))
  | Some (LStr EmptyString) => LStr ("#" +:+ str_int (Z.of_nat _id))
  | Some label => label
  end.

(** [Ezre.__init__(self, expr, *, label=None, cardinality=None)]; the
    new object is the result. *)
Definition __init__ (expr : Expr) (label : option label_arg)
    (cardinality : option Cardinality) : M loc :=
  fun st =>
    let self := length (objects st) in
    let _id := size (_instances st) in
    let label := label_or label _id in
    let cardinality := default CARDINALITY.One cardinality in
    let re_ := expr_re expr +:+ CardinalityImpl.__str__ cardinality in
    (OK self,
     {| objects := objects st ++ [ {| _id := _id; _label := as_label label;
                                      _expr := expr; _cardinality := cardinality;
                                      _re := re_ |} ];
        _instances := <[_id := self]> (_instances st) |}).

(** [Ezre.string_key] *)
Definition string_key (item : string) : Z * string :=
  (- Z.of_nat (String.length item), item).

(** [Ezre.from_str] *)
Definition from_str (expr : string) (label : option label_arg)
    (cardinality : option Cardinality) : M loc :=
  __init__ (Str expr) label cardinality.

(** [Ezre.from_sequence] *)
Definition from_sequence (expr : list string) (label : option label_arg)
    (cardinality : option Cardinality) : M loc :=
  do items <- mapM (fun s => from_str s None None)
                (Sorting.sorted string_key (Sorting.set (List.map re.escape expr)));
  do expr <- Or__init__ items;
  __init__ expr label cardinality.

(** [Ezre.as_] *)
Definition as_ (self : loc) (label : label_arg) : M loc :=
  fun st =>
    match objects st !! self with
    | None => (raise DanglingReference, st)
    | Some o =>
        (OK self,
         {| objects := <[self := {| _id := _id o; _label := as_label label;
                                    _expr := _expr o; _cardinality := _cardinality o;
                                    _re := _re o |}]> (objects st);
            _instances := _instances st |})
    end.

(** The properties [label], [expr] and [cardinality]. *)
Definition label (self : loc) : M Label := do o <- deref self; ret (_label o).
Definition expr (self : loc) : M Expr := do o <- deref self; ret (_expr o).
Definition cardinality (self : loc) : M Cardinality :=
  do o <- deref self; ret (_cardinality o).

(** [Ezre.group] *)
Definition group (self : loc) (name : string) : M loc :=
  do start <- from_str ("(?P<" +:+ name +:+ ">") None None;
  do end_ <- from_str ")" None None;
  do expr <- And__init__ [start; self; end_];
  do l <- label self;
  __init__ expr (Some (LLabel l)) None.

(** [Ezre.__or__] for an [other] that is an [Ezre]. *)
Definition __or__ (self other : loc) : M loc :=
  do expr <- Or__init__ [self; other];
  do l1 <- label self;
  do l2 <- label other;
  __init__ expr (Some (LLabel (LabelImpl.__or__ l1 l2))) None.

(** [Ezre.__add__]: [other] is [None] or an [Ezre]. *)
Definition __add__ (self : loc) (other : option loc) : M loc :=
  let other := match other with None => EZRE.End | Some other => other end in
  do expr <- And__init__ [self; other];
  do l1 <- label self;
  do l2 <- label other;
  __init__ expr (Some (LLabel (LabelImpl.__add__ l1 l2))) None.

(** [Ezre.__radd__], reached by [None + self]. *)
Definition __radd__ (self : loc) : M loc :=
  let other := EZRE.Begin in
  __add__ other (Some self).

(** The "typing" block of [Ezre.__getitem__]. *)
Definition typed_cardinality (cardinality : pyobj) : result Cardinality :=
  match cardinality with
  | PyInt n => CardinalityImpl.__init__ [PyInt n; PyInt n]
  | PySlice a b c => CardinalityImpl.__init__ [a; b; c]
  | PyCardinality c => OK c
  | _ => raise (TypeError type_cardinality)
  end.

(** [Ezre.__getitem__] *)
Definition __getitem__ (self : loc) (cardinality : pyobj) : M loc :=
  do cardinality <- lift (typed_cardinality cardinality);
  if CardinalityImpl.__eq__ cardinality (PyCardinality CARDINALITY.One)
  then ret self
  else
    do e <- expr self;
    do l <- label self;
    __init__ e
      (Some (LLabel (LabelImpl.__add__ l (Var (CardinalityImpl.__str__ cardinality)))))
      (Some cardinality).

End EzreImpl.

(** The store before any node is built, and the store once the module is
    loaded: [Begin = Ezre(r"^", label="^")], then
    [End = Ezre(r"$", label="$")]. *)
Definition empty_store : store := {| objects := []; _instances := ∅ |}.

Definition load_module : M loc :=
  do _ <- EzreImpl.__init__ (Str "^") (Some (LStr "^")) None;
  EzreImpl.__init__ (Str "$") (Some (LStr "$")) None.

Definition module_loaded : store := snd (load_module empty_store).

(** The calls a program can make on the class and its nodes. *)
Inductive call :=
| call_from_str (expr : string) (label : option label_arg) (cardinality : option Cardinality)
| call_from_sequence (expr : list string) (label : option label_arg)
    (cardinality : option Cardinality)
| call_as_ (self : loc) (label : label_arg)
| call_group (self : loc) (name : string)
| call_or (self other : loc)
| call_add (self : loc) (other : option loc)
| call_radd (self : loc)
| call_getitem (self : loc) (cardinality : pyobj).

Definition exec (c : call) : M loc :=
  match c with
  | call_from_str e l k => EzreImpl.from_str e l k
  | call_from_sequence e l k => EzreImpl.from_sequence e l k
  | call_as_ self l => EzreImpl.as_ self l
  | call_group self name => EzreImpl.group self name
  | call_or self other => EzreImpl.__or__ self other
  | call_add self other => EzreImpl.__add__ self other
  | call_radd self => EzreImpl.__radd__ self
  | call_getitem self k => EzreImpl.__getitem__ self k
  end.

(** The stores a program can be in: the module is loaded, then calls are
    made on nodes that exist. *)
Definition is_node (st : store) (l : loc) : Prop := (l < length (objects st))%nat.

Definition receiver_ok (st : store) (c : call) : Prop :=
  match c with
  | call_from_str _ _ _ | call_from_sequence _ _ _ => True
  | call_as_ self _ | call_group self _ | call_radd self | call_getitem self _ => is_node st self
  | call_or self other => is_node st self /\ is_node st other
  | call_add self other => is_node st self /\ from_option (is_node st) True other
  end.

Inductive reachable : store -> Prop :=
| reachable_loaded : reachable module_loaded
| reachable_call st c :
    reachable st -> receiver_ok st c -> reachable (snd (exec c st)).

(** The text of a node, as a caller reads it off the store. *)
Definition re_of (st : store) (l : loc) : option string := _re <$> objects st !! l.

(** The text of the node that a computation returns. *)
Definition rendered (m : M loc) (st : store) : option string :=
  match m st with
  | (inr l, st') => re_of st' l
  | (inl _, _) => None
  end.

(** A store with three leaves ["A"], ["B"] and ["C"], at 2, 3 and 4. *)
Definition three_leaves : store :=
  snd ((do _ <- EzreImpl.from_str "A" None None;
        do _ <- EzreImpl.from_str "B" None None;
        EzreImpl.from_str "C" None None) module_loaded).

(** Two states of one object that differ at most by the label. *)
Definition same_but_label (o o' : Ezre) : Prop :=
  _id o = _id o' /\ _expr o = _expr o' /\ _cardinality o = _cardinality o' /\ _re o = _re o'.

(** [st'] has the objects of [st], relabelled at most, and maybe more. *)
Definition extends (st st' : store) : Prop :=
  forall l o, objects st !! l = Some o ->
              exists o', objects st' !! l = Some o' /\ same_but_label o o'.

(** A computation that only relabels or adds objects. *)
Definition preserving {A} (m : M A) : Prop := forall st, extends st (snd (m st)).

(** A leaf built by [from_str] with the default label and cardinality. *)
Definition is_leaf (o : Ezre) (s : string) : Prop :=
  _expr o = Str s /\ _cardinality o = CARDINALITY.One /\ _re o = s.

(** [0 <= start <= stop] on typed bounds. *)
Definition range_holds (m : Z) (n : CompleteIN) : Prop :=
  0 <= m /\ match n with Fin k => m <= k | oo => True end.

(** The order of [from_sequence]: longer first, then the order of [str]. *)
Definition longer_then_lexicographic (s1 s2 : string) : Prop :=
  (String.length s2 < String.length s1)%nat \/
  (String.length s1 = String.length s2 /\ String.compare s1 s2 = Lt).

(** The argument that gives a stop back to the constructor: [None] for
    an unbounded one. *)
Definition stop_arg (n : CompleteIN) : pyobj :=
  match n with
  | Fin k => PyInt k
  | oo => PyNone
  end.

(** Reading a quantifier back, for the proofs that a text determines the
    cardinality; the program has no such function. [read_text] gives the
    decimal text of the start, the text of the stop and what follows the
    quantifier. *)
Definition is_digit (c : ascii) : bool :=
  match Builtins.digit_of c with Some _ => true | None => false end.

Fixpoint all_digits (s : string) : bool :=
  match s with
  | EmptyString => true
  | String c s => is_digit c && all_digits s
  end.

Fixpoint span_digits (s : string) : string * string :=
  match s with
  | EmptyString => (EmptyString, EmptyString)
  | String c r =>
      if is_digit c then (String c (span_digits r).1, (span_digits r).2)
      else (EmptyString, s)
  end.

Definition or_text (d other : string) : string :=
  match d with EmptyString => other | _ => d end.

Definition read_text (s : string) : string * string * string :=
  match s with
  | EmptyString => ("1", "1", EmptyString)
  | String c r =>
      if Ascii.eqb c "?" then ("0", "1", r)
      else if Ascii.eqb c "*" then ("0", "inf", r)
      else if Ascii.eqb c "+" then ("1", "inf", r)
      else if Ascii.eqb c "{" then
        let d1 := (span_digits r).1 in
        match (span_digits r).2 with
        | String c1 r2 =>
            if Ascii.eqb c1 "," then
              match (span_digits r2).2 with
              | String _ g => (or_text d1 "0", or_text (span_digits r2).1 "inf", g)
              | EmptyString => (EmptyString, EmptyString, EmptyString)
              end
            else (d1, d1, r2)
        | EmptyString => (EmptyString, EmptyString, EmptyString)
        end
      else (EmptyString, EmptyString, s)
  end.

(** [st'] has every object of [st] as it is in [st], and maybe more. *)
Definition grows (st st' : store) : Prop :=
  forall l o, objects st !! l = Some o -> objects st' !! l = Some o.

(** A computation that changes no object. *)
Definition growing {A} (m : M A) : Prop := forall st, grows st (snd (m st)).

(** [Ezre.__repr__]: the text of the label of a node, as a caller reads
    it off the store; and the one of the node that a computation returns. *)
Definition repr_of (st : store) (l : loc) : option string :=
  (LabelImpl.__repr__ ∘ _label) <$> objects st !! l.

Definition shown (m : M loc) (st : store) : option string :=
  match m st with
  | (inr l, st') => repr_of st' l
  | (inl _, _) => None
  end.

(** The text that an [expr] keeps is the text of its items: every item
    of an [And] or an [Or] held by the node at [l] is a node built before
    [l], and the kept text is the texts of the items joined (between
    parentheses for an [Or] of more than one item). *)
Definition expr_consistent (st : store) (l : loc) (e : Expr) : Prop :=
  match e with
  | Str _ => True
  | And items r =>
      Forall (fun i => (i < l)%nat) items /\
      exists res, Forall2 (fun i t => re_of st i = Some t) items res /\
                  r = Builtins.join "" res
  | Or items r =>
      Forall (fun i => (i < l)%nat) items /\
      exists res, Forall2 (fun i t => re_of st i = Some t) items res /\
                  r = if (1 <? length items)%nat
                      then "(" +:+ Builtins.join "|" res +:+ ")"
                      else Builtins.join "|" res
  end.

(** Every node has the text of its [expr] followed by the quantifier of
    its cardinality, and its [expr] is consistent. *)
Definition store_consistent (st : store) : Prop :=
  forall l o, objects st !! l = Some o ->
    _re o = EzreImpl.expr_re (_expr o) +:+ _str (_cardinality o) /\
    expr_consistent st l (_expr o).

(** The registry of a program that keeps its nodes: the node built
    after [k] others has the id [k] and is the value of [k]. *)
Definition registry_exact (st : store) : Prop :=
  size (_instances st) = length (objects st) /\
  (forall k, _instances st !! k
             = if decide (k < length (objects st))%nat then Some k else None) /\
  (forall l o, objects st !! l = Some o -> _id o = l).

Definition good (st : store) : Prop := store_consistent st /\ registry_exact st.

(** From a good store where [P] holds, [m] leaves a good store, and
    [Q] holds of the value it returns. *)
Definition hoare {A} (P : store -> Prop) (m : M A) (Q : A -> store -> Prop) : Prop :=
  forall st, good st -> P st ->
    good (snd (m st)) /\ forall a, fst (m st) = inr a -> Q a (snd (m st)).

(** * Properties *)

(** ** Cardinality *)

Section CardinalityFacts.
Import Builtins CardinalityImpl.

(** What a successful construction went through. *)
Lemma init_OK_inv slice_args c :
  __init__ slice_args = OK c ->
  exists a b s m n f,
    slice slice_args = OK (a, b, s) /\
    typed_start a = OK m /\ typed_stop b = OK n /\
    as_MinMax (typed_step s) = Some f /\
    0 <= m /\ le_CompleteIN m n = true /\
    (eq_CompleteIN m n && is_min f = false) /\
    c = {| _str := quantifier m n +:+ non_greedy_option m n f;
           start := m; stop := n; step := f |}.
Proof.
  unfold __init__. intros H.
  destruct (slice slice_args) as [e | [[a b] s]] eqn:Hs; [discriminate |].
  cbn [rbind] in H.
  destruct (typed_start a) as [e | m] eqn:Ha; [discriminate |].
  cbn [rbind] in H.
  destruct (typed_stop b) as [e | n] eqn:Hb; [discriminate |].
  cbn [rbind] in H.
  destruct (as_MinMax (typed_step s)) as [f |] eqn:Hf; [| discriminate].
  destruct ((0 <=? m) && le_CompleteIN m n) eqn:Hr; cbn [negb] in H; [| discriminate].
  destruct (eq_CompleteIN m n && is_min f) eqn:Hg; [discriminate |].
  apply andb_prop in Hr as [H0 Hle]. apply Z.leb_le in H0.
  exists a, b, s, m, n, f. repeat split; try assumption.
  unfold OK in H. congruence.
Qed.

Lemma eq_CompleteIN_true m n : eq_CompleteIN m n = true <-> n = Fin m.
Proof.
  destruct n as [n |]; cbn; [| split; discriminate].
  rewrite Z.eqb_eq. split; [intros -> | intros [= ->]]; reflexivity.
Qed.

Lemma eq_CompleteIN_false m n : eq_CompleteIN m n = false <-> n <> Fin m.
Proof.
  rewrite <- eq_CompleteIN_true. destruct (eq_CompleteIN m n); split; congruence.
Qed.

(** The rows of the quantifier table. *)
Lemma quantifier_0_1 : quantifier 0 (Fin 1) = "?".
Proof. reflexivity. Qed.

Lemma quantifier_0_oo : quantifier 0 oo = "*".
Proof. reflexivity. Qed.

Lemma quantifier_0_n n : n <> 1 -> quantifier 0 (Fin n) = "{," +:+ str_int n +:+ "}".
Proof.
  intros Hn. unfold quantifier, eq_CompleteIN.
  destruct (Z.eqb_spec 1 n); [lia | reflexivity].
Qed.

Lemma quantifier_1_1 : quantifier 1 (Fin 1) = "".
Proof. reflexivity. Qed.

Lemma quantifier_1_oo : quantifier 1 oo = "+".
Proof. reflexivity. Qed.

Lemma quantifier_1_n n : n <> 1 -> quantifier 1 (Fin n) = "{1," +:+ str_int n +:+ "}".
Proof.
  intros Hn. unfold quantifier, eq_CompleteIN.
  destruct (Z.eqb_spec 1 n); [lia | reflexivity].
Qed.

Lemma quantifier_m_m m : 1 < m -> quantifier m (Fin m) = "{" +:+ str_int m +:+ "}".
Proof.
  intros Hm. unfold quantifier, eq_CompleteIN.
  destruct (Z.eqb_spec m 0); [lia |].
  destruct (Z.eqb_spec m 1); [lia |].
  rewrite Z.eqb_refl. reflexivity.
Qed.

Lemma quantifier_m_oo m : 1 < m -> quantifier m oo = "{" +:+ str_int m +:+ ",}".
Proof.
  intros Hm. unfold quantifier.
  destruct (Z.eqb_spec m 0); [lia |].
  destruct (Z.eqb_spec m 1); [lia |].
  reflexivity.
Qed.

Lemma quantifier_m_n m n :
  1 < m -> m <> n ->
  quantifier m (Fin n) = "{" +:+ str_int m +:+ "," +:+ str_int n +:+ "}".
Proof.
  intros Hm Hn. unfold quantifier, eq_CompleteIN.
  destruct (Z.eqb_spec m 0); [lia |].
  destruct (Z.eqb_spec m 1); [lia |].
  destruct (Z.eqb_spec m n); [lia | reflexivity].
Qed.

Lemma non_greedy_option_spec m n f :
  non_greedy_option m n f
  = if bool_decide (Fin m <> n /\ f = py_min) then "?" else "".
Proof.
  unfold non_greedy_option.
  destruct (eq_CompleteIN m n) eqn:E.
  - apply eq_CompleteIN_true in E. subst n. cbn.
    rewrite bool_decide_eq_false_2; [reflexivity | intros [? _]; congruence].
  - apply eq_CompleteIN_false in E. destruct f; cbn.
    + rewrite bool_decide_eq_true_2; [reflexivity | split; congruence].
    + rewrite bool_decide_eq_false_2; [reflexivity | intros [_ ?]; discriminate].
Qed.

End CardinalityFacts.

Section CardinalityClaims.
Import Builtins CardinalityImpl.

(** C1. For every successful construction of a [Cardinality]:
    an absent start is 0, an absent stop is unbounded and an absent step
    is [max]; a given bound is its [int] and a given step is itself; and
    the text is the quantifier of the table for the bounds
    ("?" for (0,1), "*" for (0,oo), "{,n}" for (0,n) with n>1, nothing
    for (1,1), "+" for (1,oo), "{1,n}" for (1,n) with n>1, "{m}" for
    (m,m) with m>1, "{m,}" for (m,oo) with m>1, "{m,n}" for (m,n) with
    m>1 and m<>n), followed by "?" exactly when start <> stop and step
    is [min]. *)
Theorem Cardinality_str_table (slice_args : list pyobj) (c : Cardinality) :
  __init__ slice_args = OK c ->
  let m := start c in
  let n := stop c in
  let greedy := if bool_decide (Fin m <> n /\ step c = py_min) then "?" else "" in
  (exists a b s,
      slice slice_args = OK (a, b, s) /\
      (a = PyNone -> m = 0) /\ (a <> PyNone -> int a = OK m) /\
      (b = PyNone -> n = oo) /\ (b <> PyNone -> exists k, int b = OK k /\ n = Fin k) /\
      (s = PyNone -> step c = py_max) /\ (s <> PyNone -> s = PyBuiltin (step c))) /\
  (m = 0 -> n = Fin 1 -> _str c = "?" +:+ greedy) /\
  (m = 0 -> n = oo -> _str c = "*" +:+ greedy) /\
  (forall k, m = 0 -> n = Fin k -> 1 < k ->
             _str c = ("{," +:+ str_int k +:+ "}") +:+ greedy) /\
  (m = 1 -> n = Fin 1 -> _str c = "" +:+ greedy) /\
  (m = 1 -> n = oo -> _str c = "+" +:+ greedy) /\
  (forall k, m = 1 -> n = Fin k -> 1 < k ->
             _str c = ("{1," +:+ str_int k +:+ "}") +:+ greedy) /\
  (1 < m -> n = Fin m -> _str c = ("{" +:+ str_int m +:+ "}") +:+ greedy) /\
  (1 < m -> n = oo -> _str c = ("{" +:+ str_int m +:+ ",}") +:+ greedy) /\
  (forall k, 1 < m -> n = Fin k -> m <> k ->
             _str c = ("{" +:+ str_int m +:+ "," +:+ str_int k +:+ "}") +:+ greedy).
Proof.
  intros H.
  destruct (init_OK_inv _ _ H) as (a & b & s & m0 & n0 & f & Hs & Ha & Hb & Hf & _ & _ & _ & ->).
  cbn [start stop step _str]. rewrite non_greedy_option_spec.
  split.
  { exists a, b, s. split; [exact Hs |].
    repeat split.
    - intros ->. cbn in Ha. unfold OK in Ha. congruence.
    - intros Hn. destruct a; try contradiction; exact Ha.
    - intros ->. cbn in Hb. unfold OK in Hb. congruence.
    - intros Hn. unfold typed_stop in Hb.
      destruct b; try contradiction; cbn [is_None] in Hb;
        (destruct (int _) as [e | k] eqn:Hk; [discriminate |]);
        exists k; (split; [reflexivity | cbn in Hb; unfold OK in Hb; congruence]).
    - intros ->. cbn in Hf. congruence.
    - intros Hn. destruct s; try contradiction; cbn in Hf; congruence. }
  repeat split.
  - intros -> ->. reflexivity.
  - intros -> ->. reflexivity.
  - intros k -> -> Hk. rewrite quantifier_0_n by lia. reflexivity.
  - intros -> ->. reflexivity.
  - intros -> ->. reflexivity.
  - intros k -> -> Hk. rewrite quantifier_1_n by lia. reflexivity.
  - intros Hm ->. rewrite quantifier_m_m by lia. reflexivity.
  - intros Hm ->. rewrite quantifier_m_oo by lia. reflexivity.
  - intros k Hm -> Hk. rewrite quantifier_m_n by lia. reflexivity.
Qed.

(** The table at [Cardinality(1, 2, min)]. *)
Lemma Cardinality_str_table_witness :
  let c := {| _str := "{1,2}?"; start := 1; stop := Fin 2; step := py_min |} in
  __init__ [PyInt 1; PyInt 2; PyBuiltin py_min] = OK c /\
  _str c = ("{1," +:+ str_int 2 +:+ "}") +:+ "?".
Proof.
  intros c. split; [reflexivity |].
  destruct (Cardinality_str_table [PyInt 1; PyInt 2; PyBuiltin py_min] c eq_refl)
    as (_ & _ & _ & _ & _ & _ & H & _).
  exact (H 2 eq_refl eq_refl eq_refl).
Defined.

Lemma range_holds_spec m n :
  (0 <=? m) && le_CompleteIN m n = true <-> range_holds m n.
Proof.
  unfold range_holds. rewrite andb_true_iff, Z.leb_le.
  destruct n as [k |]; cbn; [rewrite Z.leb_le |]; tauto.
Qed.

Lemma int_failures x e :
  int x = raise e ->
  e = ValueError invalid_literal_for_int \/ e = TypeError int_argument_must_be.
Proof.
  unfold raise, OK. destruct x; cbn; try destruct (int_of_str s);
    intros H; inversion H; auto.
Qed.

Lemma typed_start_raise a e :
  typed_start a = raise e <-> a <> PyNone /\ int a = raise e.
Proof.
  unfold typed_start. destruct a; cbn [is_None]; split;
    try (intros H; split; [discriminate | exact H]); try (intros [_ H]; exact H).
  - discriminate.
  - intros [H _]. contradiction.
Qed.

Lemma typed_stop_raise b e :
  typed_stop b = raise e <-> b <> PyNone /\ int b = raise e.
Proof.
  unfold typed_stop. destruct b; cbn [is_None];
    [ split; [discriminate | intros [H _]; contradiction] | idtac .. ];
    (destruct (int _) as [e' | k]; cbn [rbind]; unfold raise, OK;
     (split; [intros H; split; [discriminate | congruence] | intros [_ H]; congruence])).
Qed.

(** One direction of one case of the characterisation of the failures. *)
Ltac settle :=
  intros;
  repeat match goal with
         | H : exists _, _ |- _ => destruct H
         | H : _ /\ _ |- _ => destruct H
         end;
  first [ discriminate | contradiction | congruence | reflexivity
        | solve [eauto]
        | solve [split; [eauto | split; [assumption | intros [? ?]; congruence]]]
        | solve [repeat split; eauto]
        | solve [exfalso; eauto] ].

(** C5, as the code has it. The failures of a construction, in the
    order in which they are looked for: a given start that [int]
    refuses, then a given stop that [int] refuses, each with the error
    of [int] itself (a [ValueError] for a [str] that is no number, a
    [TypeError] otherwise; never the [IndexError] of a range); then
    [StepError] when step is neither [None], [min] nor [max]; then
    [RangeError] when [0 <= start <= stop] does not hold; then
    [GreedinessError] when start = stop and step is [min]; and the
    construction succeeds in every other case. *)
Theorem Cardinality_failures (slice_args : list pyobj) (a b s : pyobj) :
  slice slice_args = OK (a, b, s) ->
  let r := __init__ slice_args in
  let step_ok := exists f, typed_step s = PyBuiltin f in
  (forall e, a <> PyNone -> int a = raise e ->
             r = raise e /\ class_of e <> class_of RangeError) /\
  (forall m e, typed_start a = OK m -> b <> PyNone -> int b = raise e ->
               r = raise e /\ class_of e <> class_of RangeError) /\
  (forall m n, typed_start a = OK m -> typed_stop b = OK n ->
     (r = raise StepError <-> ~ step_ok) /\
     (r = raise RangeError <-> step_ok /\ ~ range_holds m n) /\
     (r = raise GreedinessError <->
        range_holds m n /\ n = Fin m /\ typed_step s = PyBuiltin py_min) /\
     ((exists c, r = OK c) <->
        step_ok /\ range_holds m n /\ ~ (n = Fin m /\ typed_step s = PyBuiltin py_min))).
Proof.
  intros Hs r step_ok. subst r. unfold __init__. rewrite Hs.
  unfold OK, raise in *. cbn [rbind].
  split; [| split].
  - intros e Ha He.
    assert (Hst : typed_start a = raise e) by (apply typed_start_raise; auto).
    rewrite Hst. split; [reflexivity |].
    destruct (int_failures _ _ He) as [-> | ->]; discriminate.
  - intros m e Hm Hb He.
    assert (Hst : typed_stop b = raise e) by (apply typed_stop_raise; auto).
    rewrite Hm, Hst. split; [reflexivity |].
    destruct (int_failures _ _ He) as [-> | ->]; discriminate.
  - intros m n Hm Hn. rewrite Hm, Hn. cbn [rbind]. subst step_ok.
    unfold StepError, RangeError, GreedinessError.
    destruct (as_MinMax (typed_step s)) as [f |] eqn:Hf.
    2:{ assert (Hno : ~ exists f, typed_step s = PyBuiltin f).
        { intros [f Hf']. rewrite Hf' in Hf. discriminate. }
        split; [| split; [| split]]; split; settle. }
    assert (Hs' : typed_step s = PyBuiltin f).
    { destruct (typed_step s); try discriminate. cbn in Hf. congruence. }
    rewrite Hs'.
    assert (Hyes : exists f0, PyBuiltin f = PyBuiltin f0) by eauto.
    destruct ((0 <=? m) && le_CompleteIN m n) eqn:Hr; cbn [negb].
    + apply range_holds_spec in Hr.
      destruct (eq_CompleteIN m n) eqn:He; cbn [andb].
      * apply eq_CompleteIN_true in He.
        destruct f; cbn [is_min];
          (split; [| split; [| split]]; split; settle).
      * apply eq_CompleteIN_false in He.
        split; [| split; [| split]]; split; settle.
    + assert (Hn' : ~ range_holds m n).
      { intros H. apply range_holds_spec in H. congruence. }
      split; [| split; [| split]]; split; settle.
Qed.

(** The failures of [Cardinality(None, "hello")], [Cardinality(5, 3, 1)],
    [Cardinality(5, 3)] and [Cardinality(5, 5, min)]. *)
Lemma Cardinality_failures_witness :
  slice [PyNone; PyStr "hello"] = OK (PyNone, PyStr "hello", PyNone) /\
  __init__ [PyNone; PyStr "hello"] = raise (ValueError invalid_literal_for_int) /\
  __init__ [PyInt 5; PyInt 3; PyInt 1] = raise StepError /\
  __init__ [PyInt 5; PyInt 3] = raise RangeError /\
  __init__ [PyInt 5; PyInt 5; PyBuiltin py_min] = raise GreedinessError.
Proof.
  split; [reflexivity |]. split; [| split; [| split]].
  - destruct (Cardinality_failures [PyNone; PyStr "hello"] _ _ _ eq_refl) as (_ & H & _).
    apply (H 0 (ValueError invalid_literal_for_int) eq_refl); [discriminate | reflexivity].
  - destruct (Cardinality_failures [PyInt 5; PyInt 3; PyInt 1] _ _ _ eq_refl) as (_ & _ & H).
    destruct (H 5 (Fin 3) eq_refl eq_refl) as (H1 & _).
    apply H1. intros [f Hf]. discriminate.
  - destruct (Cardinality_failures [PyInt 5; PyInt 3] _ _ _ eq_refl) as (_ & _ & H).
    destruct (H 5 (Fin 3) eq_refl eq_refl) as (_ & H1 & _).
    apply H1. split; [exists py_max; reflexivity |]. intros [_ H2]. lia.
  - destruct (Cardinality_failures [PyInt 5; PyInt 5; PyBuiltin py_min] _ _ _ eq_refl)
      as (_ & _ & H).
    destruct (H 5 (Fin 5) eq_refl eq_refl) as (_ & _ & H1 & _).
    apply H1. repeat split; lia.
Defined.

(** C5, as the specification has it, fails: the stop of
    [Cardinality(None, "hello")] cannot be made an [int], and the
    construction does not fail with the error of a range. *)
Lemma coercion_failure_is_no_RangeError :
  ~ ((forall n, int (PyStr "hello") <> OK n) ->
     __init__ [PyNone; PyStr "hello"] = raise RangeError).
Proof.
  intros H. assert (Hn : forall n, int (PyStr "hello") <> OK n) by (intros n; discriminate).
  specialize (H Hn). discriminate.
Qed.

(** C6. Two cardinalities are equal exactly when their texts are equal,
    whatever their bounds; so [Cardinality(2) == Cardinality(0, 2) ==
    Cardinality(None, 2)] and [Cardinality(2, 2) == Cardinality(2, 2, max)]. *)
Theorem Cardinality_eq_iff_str :
  (forall c1 c2 : Cardinality,
      __eq__ c1 (PyCardinality c2) = true <-> __str__ c1 = __str__ c2) /\
  (exists c c' c'',
      __init__ [PyInt 2] = OK c /\ __init__ [PyInt 0; PyInt 2] = OK c' /\
      __init__ [PyNone; PyInt 2] = OK c'' /\
      __eq__ c (PyCardinality c') && __eq__ c' (PyCardinality c'') = true) /\
  (exists c c',
      __init__ [PyInt 2; PyInt 2] = OK c /\
      __init__ [PyInt 2; PyInt 2; PyBuiltin py_max] = OK c' /\
      __eq__ c (PyCardinality c') = true).
Proof.
  split; [| split].
  - intros c1 c2. cbn [__eq__]. apply bool_decide_eq_true.
  - do 3 eexists. repeat split; reflexivity.
  - do 2 eexists. repeat split; reflexivity.
Qed.

End CardinalityClaims.

(** ** The store *)

Section StoreFacts.
Import Builtins EzreImpl.

Lemma append_nil_r (s : string) : s +:+ "" = s.
Proof.
  induction s as [| c s IH]; [reflexivity |].
  change (String c (s +:+ "") = String c s). f_equal. exact IH.
Qed.

Lemma same_but_label_refl o : same_but_label o o.
Proof. repeat split. Qed.

Lemma same_but_label_trans o1 o2 o3 :
  same_but_label o1 o2 -> same_but_label o2 o3 -> same_but_label o1 o3.
Proof. unfold same_but_label. intuition congruence. Qed.

Lemma extends_refl st : extends st st.
Proof. intros l o H. exists o. split; [exact H | apply same_but_label_refl]. Qed.

Lemma extends_trans st1 st2 st3 : extends st1 st2 -> extends st2 st3 -> extends st1 st3.
Proof.
  intros H12 H23 l o1 H1.
  destruct (H12 _ _ H1) as (o2 & H2 & S12).
  destruct (H23 _ _ H2) as (o3 & H3 & S23).
  exists o3. split; [exact H3 | eapply same_but_label_trans; eassumption].
Qed.

Lemma extends_is_node st st' l : extends st st' -> is_node st l -> is_node st' l.
Proof.
  unfold is_node. intros H Hl.
  destruct (lookup_lt_is_Some_2 (objects st) l Hl) as [o Ho].
  destruct (H _ _ Ho) as (o' & Ho' & _).
  eapply lookup_lt_Some; eassumption.
Qed.

Lemma preserving_ret {A} (a : A) : preserving (ret a).
Proof. intros st. apply extends_refl. Qed.

Lemma preserving_lift {A} (r : result A) : preserving (lift r).
Proof. intros st. apply extends_refl. Qed.

Lemma preserving_bind {A B} (m : M A) (k : A -> M B) :
  preserving m -> (forall a, preserving (k a)) -> preserving (bind m k).
Proof.
  intros Hm Hk st. unfold bind. specialize (Hm st).
  destruct (m st) as [[e | a] st']; cbn in *; [exact Hm |].
  eapply extends_trans; [exact Hm | apply Hk].
Qed.

Lemma preserving_deref l : preserving (deref l).
Proof. intros st. unfold deref. destruct (objects st !! l); apply extends_refl. Qed.

Lemma preserving_mapM {A B} (f : A -> M B) items :
  (forall x, preserving (f x)) -> preserving (mapM f items).
Proof.
  intros Hf. induction items as [| x items IH]; cbn [mapM].
  - apply preserving_ret.
  - apply preserving_bind; [apply Hf |]. intros y.
    apply preserving_bind; [exact IH |]. intros ys. apply preserving_ret.
Qed.

Lemma preserving__init__ e l k : preserving (__init__ e l k).
Proof.
  intros st i o H. cbn. exists o. split; [| apply same_but_label_refl].
  rewrite lookup_app_l; [exact H | eapply lookup_lt_Some; exact H].
Qed.

Lemma preserving_as_ self l : preserving (as_ self l).
Proof.
  intros st i o H. unfold as_.
  destruct (objects st !! self) as [o0 |] eqn:Hself; cbn.
  - destruct (decide (self = i)) as [-> | Hne].
    + rewrite list_lookup_insert_eq by (eapply lookup_lt_Some; exact H).
      eexists. split; [reflexivity |].
      assert (o0 = o) by congruence. subst o0. repeat split.
    + rewrite list_lookup_insert_ne by exact Hne.
      exists o. split; [exact H | apply same_but_label_refl].
  - exists o. split; [exact H | apply same_but_label_refl].
Qed.

Lemma preserving_get_re l : preserving (get_re l).
Proof.
  apply preserving_bind; [apply preserving_deref | intros; apply preserving_ret].
Qed.

Lemma preserving_label l : preserving (label l).
Proof.
  apply preserving_bind; [apply preserving_deref | intros; apply preserving_ret].
Qed.

Lemma preserving_expr l : preserving (expr l).
Proof.
  apply preserving_bind; [apply preserving_deref | intros; apply preserving_ret].
Qed.

Lemma preserving_And__init__ items : preserving (And__init__ items).
Proof.
  apply preserving_bind; [| intros; apply preserving_ret].
  apply preserving_mapM, preserving_get_re.
Qed.

Lemma preserving_Or__init__ items : preserving (Or__init__ items).
Proof.
  apply preserving_bind; [| intros; apply preserving_ret].
  apply preserving_mapM, preserving_get_re.
Qed.

Create HintDb preserving.

#[local] Hint Resolve preserving_ret preserving_lift preserving_deref preserving__init__
  preserving_as_ preserving_get_re preserving_label preserving_expr
  preserving_And__init__ preserving_Or__init__ : preserving.

Ltac preserving :=
  repeat first [ apply preserving_bind; [| intros ?]
               | apply preserving_mapM; intros ?
               | solve [auto with preserving] ].

Lemma preserving_exec c : preserving (exec c).
Proof.
  destruct c; cbn [exec].
  - apply preserving__init__.
  - unfold from_sequence, from_str. preserving.
  - apply preserving_as_.
  - unfold group, from_str. preserving.
  - unfold __or__. preserving.
  - unfold __add__. preserving.
  - unfold __radd__, __add__. preserving.
  - unfold __getitem__. preserving.
    destruct (CardinalityImpl.__eq__ _ _); preserving.
Qed.

Lemma module_loaded_objects :
  objects module_loaded
  = [ {| _id := 0; _label := Var "^"; _expr := Str "^";
         _cardinality := CARDINALITY.One; _re := "^" |};
      {| _id := 1; _label := Var "$"; _expr := Str "$";
         _cardinality := CARDINALITY.One; _re := "$" |} ].
Proof. vm_compute. reflexivity. Qed.

(** Every store of a program still has the objects built at load time. *)
Lemma reachable_extends st : reachable st -> extends module_loaded st.
Proof.
  induction 1 as [| st c _ IH _].
  - apply extends_refl.
  - eapply extends_trans; [exact IH | apply preserving_exec].
Qed.

Lemma reachable_anchors st :
  reachable st ->
  exists b e,
    objects st !! EZRE.Begin = Some b /\ _expr b = Str "^" /\ _re b = "^" /\
    objects st !! EZRE.End = Some e /\ _expr e = Str "$" /\ _re e = "$".
Proof.
  intros H. apply reachable_extends in H. unfold extends in H.
  rewrite module_loaded_objects in H.
  destruct (H EZRE.Begin _ eq_refl) as (b & Hb & _ & Eb & _ & Rb).
  destruct (H EZRE.End _ eq_refl) as (e & He & _ & Ee & _ & Re).
  exists b, e. cbn in Eb, Rb, Ee, Re. repeat split; congruence.
Qed.

End StoreFacts.

(** ** Ezre *)

Section EzreClaims.
Import Builtins EzreImpl.

(** Running the operators on nodes that are in the store. *)
Lemma bind_OK {A B} (m : M A) (k : A -> M B) st a st' :
  m st = (OK a, st') -> bind m k st = k a st'.
Proof. unfold bind. intros ->. reflexivity. Qed.

Lemma deref_Some st l o : objects st !! l = Some o -> deref l st = (OK o, st).
Proof. unfold deref. intros ->. reflexivity. Qed.

Lemma get_re_Some st l o : objects st !! l = Some o -> get_re l st = (OK (_re o), st).
Proof. intros H. unfold get_re. now rewrite (bind_OK _ _ _ _ _ (deref_Some _ _ _ H)). Qed.

Lemma label_Some st l o : objects st !! l = Some o -> label l st = (OK (_label o), st).
Proof. intros H. unfold label. now rewrite (bind_OK _ _ _ _ _ (deref_Some _ _ _ H)). Qed.

Lemma expr_Some st l o : objects st !! l = Some o -> expr l st = (OK (_expr o), st).
Proof. intros H. unfold expr. now rewrite (bind_OK _ _ _ _ _ (deref_Some _ _ _ H)). Qed.

Lemma mapM_get_re st items res :
  Forall2 (fun l r => re_of st l = Some r) items res ->
  mapM get_re items st = (OK res, st).
Proof.
  induction 1 as [| l r items res Hl _ IH]; cbn [mapM]; [reflexivity |].
  unfold re_of in Hl. destruct (objects st !! l) as [o |] eqn:Ho; [| discriminate].
  injection Hl as <-.
  rewrite (bind_OK _ _ _ _ _ (get_re_Some _ _ _ Ho)).
  rewrite (bind_OK _ _ _ _ _ IH). reflexivity.
Qed.

Lemma And__init___run st items res :
  Forall2 (fun l r => re_of st l = Some r) items res ->
  And__init__ items st = (OK (And items (join "" res)), st).
Proof.
  intros H. unfold And__init__. now rewrite (bind_OK _ _ _ _ _ (mapM_get_re _ _ _ H)).
Qed.

Lemma Or__init___run st items res :
  Forall2 (fun l r => re_of st l = Some r) items res ->
  Or__init__ items st
  = (OK (Or items (if (1 <? length items)%nat then "(" +:+ join "|" res +:+ ")"
                   else join "|" res)), st).
Proof.
  intros H. unfold Or__init__. now rewrite (bind_OK _ _ _ _ _ (mapM_get_re _ _ _ H)).
Qed.

Lemma rendered_OK (m : M loc) st l st' : m st = (OK l, st') -> rendered m st = re_of st' l.
Proof. unfold rendered. intros ->. reflexivity. Qed.

Lemma re_of_lookup st l o : objects st !! l = Some o -> re_of st l = Some (_re o).
Proof. unfold re_of. intros ->. reflexivity. Qed.

Lemma re_of_Some st l r :
  re_of st l = Some r <-> exists o, objects st !! l = Some o /\ _re o = r.
Proof.
  unfold re_of. destruct (objects st !! l) as [o |]; cbn.
  - split; [intros [= <-]; eauto | intros (o' & [= <-] & <-); reflexivity].
  - split; [discriminate | intros (o' & H & _); discriminate].
Qed.

Lemma lookup_new (l : list Ezre) o : (l ++ [o]) !! length l = Some o.
Proof. rewrite lookup_app_r by lia. now rewrite Nat.sub_diag. Qed.

Lemma lookup_old (l : list Ezre) o i x : l !! i = Some x -> (l ++ [o]) !! i = Some x.
Proof. intros H. rewrite lookup_app_l; [exact H | eapply lookup_lt_Some; exact H]. Qed.

(** [a | b] on two nodes. *)
Lemma or_run st a b oa ob :
  objects st !! a = Some oa -> objects st !! b = Some ob ->
  __or__ a b st
  = (OK (length (objects st)),
     {| objects := objects st ++
          [ {| _id := size (_instances st);
               _label := LabelOr [_label oa; _label ob];
               _expr := Or [a; b] ("(" +:+ join "|" [_re oa; _re ob] +:+ ")");
               _cardinality := CARDINALITY.One;
               _re := ("(" +:+ join "|" [_re oa; _re ob] +:+ ")") +:+ "" |} ];
        _instances := <[size (_instances st) := length (objects st)]> (_instances st) |}).
Proof.
  intros Ha Hb. unfold __or__.
  erewrite bind_OK
    by (apply Or__init___run; repeat constructor; apply re_of_lookup; eassumption).
  erewrite bind_OK by (apply label_Some; eassumption).
  erewrite bind_OK by (apply label_Some; eassumption).
  reflexivity.
Qed.

(** [a + b] on two nodes, [b] maybe [None]. *)
Lemma add_run st a b oa ob :
  objects st !! a = Some oa ->
  objects st !! (match b with None => EZRE.End | Some b => b end) = Some ob ->
  __add__ a b st
  = (OK (length (objects st)),
     {| objects := objects st ++
          [ {| _id := size (_instances st);
               _label := LabelAnd [_label oa; _label ob];
               _expr := And [a; match b with None => EZRE.End | Some b => b end]
                          (join "" [_re oa; _re ob]);
               _cardinality := CARDINALITY.One;
               _re := join "" [_re oa; _re ob] +:+ "" |} ];
        _instances := <[size (_instances st) := length (objects st)]> (_instances st) |}).
Proof.
  intros Ha Hb. unfold __add__.
  erewrite bind_OK
    by (apply And__init___run; repeat constructor; apply re_of_lookup; eassumption).
  erewrite bind_OK by (apply label_Some; eassumption).
  erewrite bind_OK by (apply label_Some; eassumption).
  reflexivity.
Qed.

(** C3. [a | b] builds an [Or] over [a; b] whose text is the texts of
    [a] and [b] joined by "|" between parentheses, followed by the
    quantifier of the new node (which is [CARDINALITY.One]); so with
    nodes that render "A", "B" and "C", [(a + b) | c] renders "(AB|C)"
    and [a + (b | c)] renders "A(B|C)". *)
Theorem or_pattern (st : store) (a b c : loc) (oa ob : Ezre) :
  objects st !! a = Some oa -> objects st !! b = Some ob ->
  (exists r st' o,
      __or__ a b st = (OK r, st') /\ objects st' !! r = Some o /\
      _expr o = Or [a; b] ("(" +:+ (_re oa +:+ "|" +:+ _re ob) +:+ ")") /\
      _cardinality o = CARDINALITY.One /\
      _re o = ("(" +:+ (_re oa +:+ "|" +:+ _re ob) +:+ ")") +:+ _str (_cardinality o)) /\
  (_re oa = "A" -> _re ob = "B" -> re_of st c = Some "C" ->
   rendered (do ab <- __add__ a (Some b); __or__ ab c) st = Some "(AB|C)" /\
   rendered (do bc <- __or__ b c; __add__ a (Some bc)) st = Some "A(B|C)").
Proof.
  intros Ha Hb. split.
  - eexists _, _, _. split; [apply (or_run _ _ _ _ _ Ha Hb) |].
    cbn [objects]. split; [apply lookup_new |]. repeat split.
  - intros Ra Rb Rc. apply re_of_Some in Rc as (oc & Hc & Rc).
    split.
    + erewrite rendered_OK.
      2:{ rewrite (bind_OK _ _ _ _ _ (add_run st a (Some b) _ _ Ha Hb)).
          apply or_run; cbn [objects]; [apply lookup_new | apply lookup_old; exact Hc]. }
      unfold re_of. cbn [objects]. rewrite lookup_new.
      cbn [fmap option_fmap option_map _re]. rewrite Ra, Rb, Rc. reflexivity.
    + erewrite rendered_OK.
      2:{ rewrite (bind_OK _ _ _ _ _ (or_run st b c _ _ Hb Hc)).
          apply (add_run _ a (Some _)); cbn [objects];
            [apply lookup_old; exact Ha | apply lookup_new]. }
      unfold re_of. cbn [objects]. rewrite lookup_new.
      cbn [fmap option_fmap option_map _re]. rewrite Ra, Rb, Rc. reflexivity.
Qed.

(** The three leaves, alternated and concatenated. *)
Lemma or_pattern_witness :
  (exists oa ob,
      objects three_leaves !! 2%nat = Some oa /\ objects three_leaves !! 3%nat = Some ob /\
      _re oa = "A" /\ _re ob = "B") /\
  re_of three_leaves 4%nat = Some "C" /\
  rendered (do ab <- __add__ 2%nat (Some 3%nat); __or__ ab 4%nat) three_leaves
  = Some "(AB|C)" /\
  rendered (do bc <- __or__ 3%nat 4%nat; __add__ 2%nat (Some bc)) three_leaves
  = Some "A(B|C)".
Proof.
  split; [eexists _, _; repeat split; reflexivity |].
  split; [reflexivity |].
  refine (proj2 (or_pattern three_leaves 2%nat 3%nat 4%nat _ _ eq_refl eq_refl)
                eq_refl eq_refl eq_refl).
Defined.

(** C7, as the code has it. [a + None] builds an [And] of [a] and the
    object [EZRE.End], and [None + a] an [And] of the object
    [EZRE.Begin] and [a]; in every store of a program these two objects
    are leaves, [EZRE.End] with the text "$" and [EZRE.Begin] with the
    text "^". *)
Theorem add_None_anchors (st : store) (a : loc) (oa : Ezre) :
  reachable st -> objects st !! a = Some oa ->
  (exists b e,
      objects st !! EZRE.Begin = Some b /\ _expr b = Str "^" /\ _re b = "^" /\
      objects st !! EZRE.End = Some e /\ _expr e = Str "$" /\ _re e = "$") /\
  (exists r st' o,
      __add__ a None st = (OK r, st') /\ objects st' !! r = Some o /\
      _expr o = And [a; EZRE.End] (_re oa +:+ "$") /\ _re o = _re oa +:+ "$") /\
  (exists r st' o,
      __radd__ a st = (OK r, st') /\ objects st' !! r = Some o /\
      _expr o = And [EZRE.Begin; a] ("^" +:+ _re oa) /\ _re o = "^" +:+ _re oa).
Proof.
  intros Hst Ha.
  destruct (reachable_anchors st Hst) as (b & e & Hb & Eb & Rb & He & Ee & Re).
  split; [exists b, e; repeat split; assumption |]. split.
  - eexists _, _, _. split; [apply (add_run st a None oa e Ha He) |].
    cbn [objects]. split; [apply lookup_new |]. cbn [_expr _re].
    rewrite Re, append_nil_r. split; reflexivity.
  - eexists _, _, _. split; [apply (add_run st EZRE.Begin (Some a) b oa Hb Ha) |].
    cbn [objects]. split; [apply lookup_new |]. cbn [_expr _re].
    rewrite Rb, append_nil_r. split; reflexivity.
Qed.

(** The anchors around the leaf "A" of [three_leaves]. *)
Lemma add_None_anchors_witness :
  reachable three_leaves /\
  rendered (__add__ 2%nat None) three_leaves = Some "A$" /\
  rendered (__radd__ 2%nat) three_leaves = Some "^A".
Proof.
  assert (R : reachable three_leaves).
  { apply (reachable_call _ (call_from_str "C" None None)); [| exact I].
    apply (reachable_call _ (call_from_str "B" None None)); [| exact I].
    apply (reachable_call _ (call_from_str "A" None None)); [| exact I].
    apply reachable_loaded. }
  split; [exact R |].
  destruct (add_None_anchors three_leaves 2%nat _ R eq_refl)
    as (_ & (r & st' & o & H1 & H2 & _ & H3) & (r' & st'' & o' & H1' & H2' & _ & H3')).
  split.
  - rewrite (rendered_OK _ _ _ _ H1), (re_of_lookup _ _ _ H2), H3. reflexivity.
  - rewrite (rendered_OK _ _ _ _ H1'), (re_of_lookup _ _ _ H2'), H3'. reflexivity.
Defined.

(** C7, as the specification has it, fails: the end-of-input anchor
    does not render "^" and the start-of-input anchor does not
    render "$". *)
Lemma anchors_not_swapped :
  ~ (re_of module_loaded EZRE.End = Some "^" /\ re_of module_loaded EZRE.Begin = Some "$").
Proof. intros [H _]. vm_compute in H. discriminate. Qed.

(** [n[cardinality]] when the cardinality is exactly one. *)
Lemma getitem_run_One st n i c :
  typed_cardinality i = OK c ->
  CardinalityImpl.__eq__ c (PyCardinality CARDINALITY.One) = true ->
  __getitem__ n i st = (OK n, st).
Proof.
  intros Hi Hc. unfold __getitem__.
  erewrite bind_OK by (unfold lift; rewrite Hi; reflexivity).
  rewrite Hc. reflexivity.
Qed.

(** [n[cardinality]] when it is not. *)
Lemma getitem_run_other st n o i c :
  typed_cardinality i = OK c ->
  CardinalityImpl.__eq__ c (PyCardinality CARDINALITY.One) = false ->
  objects st !! n = Some o ->
  __getitem__ n i st
  = (OK (length (objects st)),
     {| objects := objects st ++
          [ {| _id := size (_instances st);
               _label := LabelAnd [_label o; Var (_str c)];
               _expr := _expr o;
               _cardinality := c;
               _re := expr_re (_expr o) +:+ _str c |} ];
        _instances := <[size (_instances st) := length (objects st)]> (_instances st) |}).
Proof.
  intros Hi Hc Hn. unfold __getitem__.
  erewrite bind_OK by (unfold lift; rewrite Hi; reflexivity).
  rewrite Hc.
  erewrite bind_OK by (apply expr_Some; eassumption).
  erewrite bind_OK by (apply label_Some; eassumption).
  reflexivity.
Qed.

(** C4. Indexing a node with exactly one (as the integer 1, as the
    slice [1:1] or as [CARDINALITY.One], or as any cardinality equal to
    it) returns the node itself and leaves the store as it is; indexing
    it with any other valid cardinality returns an object that was not
    in the store, which has the [expr] of the node and the new
    cardinality, and every object of the store, the node among them,
    stays as it was. *)
Theorem getitem_identity (st : store) (n : loc) (o : Ezre) (i : pyobj) (c : Cardinality) :
  objects st !! n = Some o -> typed_cardinality i = OK c ->
  (typed_cardinality (PyInt 1) = OK CARDINALITY.One /\
   typed_cardinality (PySlice (PyInt 1) (PyInt 1) PyNone) = OK CARDINALITY.One /\
   typed_cardinality (PyCardinality CARDINALITY.One) = OK CARDINALITY.One /\
   CardinalityImpl.__eq__ CARDINALITY.One (PyCardinality CARDINALITY.One) = true) /\
  (CardinalityImpl.__eq__ c (PyCardinality CARDINALITY.One) = true ->
   __getitem__ n i st = (OK n, st)) /\
  (CardinalityImpl.__eq__ c (PyCardinality CARDINALITY.One) = false ->
   exists r st' o',
     __getitem__ n i st = (OK r, st') /\
     r <> n /\ ~ is_node st r /\
     objects st' !! r = Some o' /\ _expr o' = _expr o /\ _cardinality o' = c /\
     (forall l x, objects st !! l = Some x -> objects st' !! l = Some x)).
Proof.
  intros Hn Hi. split; [repeat split |]. split.
  - intros Hc. exact (getitem_run_One st n i c Hi Hc).
  - intros Hc. eexists _, _, _.
    split; [exact (getitem_run_other st n o i c Hi Hc Hn) |].
    cbn [objects]. pose proof (lookup_lt_Some _ _ _ Hn) as Hlt.
    split; [lia |]. split; [unfold is_node; lia |].
    split; [apply lookup_new |]. split; [reflexivity |]. split; [reflexivity |].
    intros l x Hl. apply lookup_old. exact Hl.
Qed.

(** Indexing the leaf "A" of [three_leaves] with 1 and with 2. *)
Lemma getitem_identity_witness :
  __getitem__ 2%nat (PyInt 1) three_leaves = (OK 2%nat, three_leaves) /\
  exists r st' o',
    __getitem__ 2%nat (PyInt 2) three_leaves = (OK r, st') /\ r <> 2%nat /\
    objects st' !! r = Some o' /\ _expr o' = Str "A" /\ re_of st' r = Some "A{2}".
Proof.
  split.
  - exact (proj1 (proj2 (getitem_identity three_leaves 2%nat _ (PyInt 1) _ eq_refl eq_refl))
             eq_refl).
  - destruct (proj2 (proj2 (getitem_identity three_leaves 2%nat _ (PyInt 2) _
                              eq_refl eq_refl)) eq_refl)
      as (r & st' & o' & H & Hr & _ & Ho & He & _).
    exists r, st', o'. repeat split; try assumption.
    injection H as <- <-. reflexivity.
Defined.

(** C9. Indexing replaces the cardinality: with two cardinalities that
    are not exactly one, [(n[c1])[c2]] has the text of [n[c2]], which is
    the text of the [expr] of [n] followed by the quantifier of [c2];
    and indexing [n[c1]] with exactly one returns [n[c1]] itself, whose
    cardinality is [c1]. *)
Theorem getitem_replaces (st : store) (n : loc) (o : Ezre) (i1 i2 : pyobj)
    (c1 c2 : Cardinality) :
  objects st !! n = Some o ->
  typed_cardinality i1 = OK c1 -> typed_cardinality i2 = OK c2 ->
  CardinalityImpl.__eq__ c1 (PyCardinality CARDINALITY.One) = false ->
  CardinalityImpl.__eq__ c2 (PyCardinality CARDINALITY.One) = false ->
  (rendered (do m <- __getitem__ n i1; __getitem__ m i2) st
   = rendered (__getitem__ n i2) st /\
   rendered (__getitem__ n i2) st = Some (expr_re (_expr o) +:+ _str c2)) /\
  (forall i c,
      typed_cardinality i = OK c ->
      CardinalityImpl.__eq__ c (PyCardinality CARDINALITY.One) = true ->
      exists m st1 om,
        __getitem__ n i1 st = (OK m, st1) /\
        (do m <- __getitem__ n i1; __getitem__ m i) st = (OK m, st1) /\
        objects st1 !! m = Some om /\ _cardinality om = c1 /\
        _re om = expr_re (_expr o) +:+ _str c1).
Proof.
  intros Hn H1 H2 Hc1 Hc2.
  pose proof (getitem_run_other st n o i1 c1 H1 Hc1 Hn) as R1.
  pose proof (getitem_run_other st n o i2 c2 H2 Hc2 Hn) as R2.
  split.
  - assert (E2 : rendered (__getitem__ n i2) st = Some (expr_re (_expr o) +:+ _str c2)).
    { rewrite (rendered_OK _ _ _ _ R2). unfold re_of. cbn [objects].
      rewrite lookup_new. reflexivity. }
    split; [| exact E2]. rewrite E2.
    erewrite rendered_OK.
    2:{ rewrite (bind_OK _ _ _ _ _ R1).
        eapply getitem_run_other; [exact H2 | exact Hc2 | cbn [objects]; apply lookup_new]. }
    unfold re_of. cbn [objects]. rewrite lookup_new. reflexivity.
  - intros i c Hi Hc. eexists _, _, _. split; [exact R1 |]. split.
    + rewrite (bind_OK _ _ _ _ _ R1). exact (getitem_run_One _ _ i c Hi Hc).
    + cbn [objects]. split; [apply lookup_new |]. split; reflexivity.
Qed.

(** The leaf "A" of [three_leaves], indexed with [2:] and then with 3,
    and indexed with [2:] and then with 1. *)
Lemma getitem_replaces_witness :
  rendered (do m <- __getitem__ 2%nat (PySlice (PyInt 2) PyNone PyNone);
            __getitem__ m (PyInt 3)) three_leaves = Some "A{3}" /\
  rendered (do m <- __getitem__ 2%nat (PySlice (PyInt 2) PyNone PyNone);
            __getitem__ m (PyInt 1)) three_leaves = Some "A{2,}".
Proof.
  pose proof (getitem_replaces three_leaves 2%nat _ (PySlice (PyInt 2) PyNone PyNone)
                (PyInt 3) _ _ eq_refl eq_refl eq_refl eq_refl eq_refl) as [[E1 E2] H].
  split.
  - rewrite E1, E2. reflexivity.
  - destruct (H (PyInt 1) _ eq_refl eq_refl) as (m & st1 & om & _ & R & Hm & _ & Re).
    rewrite (rendered_OK _ _ _ _ R), (re_of_lookup _ _ _ Hm), Re. reflexivity.
Defined.

(** What [as_] does to the store. *)
Lemma as_run st n o l :
  objects st !! n = Some o ->
  as_ n l st
  = (OK n,
     {| objects := <[n := {| _id := _id o; _label := as_label l; _expr := _expr o;
                             _cardinality := _cardinality o; _re := _re o |}]> (objects st);
        _instances := _instances st |}).
Proof. intros H. unfold as_. rewrite H. reflexivity. Qed.

(** C8. [n.as_(label)], for a [label] that is a [str] or a [Label],
    returns [n]; afterwards the object has the new label and the [expr],
    the cardinality, the text and the id it had, every other object is
    as it was, and the registry is as it was. *)
Theorem as_frame (st : store) (n : loc) (o : Ezre) (l : label_arg) :
  objects st !! n = Some o ->
  exists st' o',
    as_ n l st = (OK n, st') /\
    objects st' !! n = Some o' /\
    _label o' = as_label l /\
    _expr o' = _expr o /\ _cardinality o' = _cardinality o /\ _re o' = _re o /\
    _id o' = _id o /\
    (forall m, m <> n -> objects st' !! m = objects st !! m) /\
    length (objects st') = length (objects st) /\
    _instances st' = _instances st.
Proof.
  intros Hn. eexists _, _. split; [exact (as_run st n o l Hn) |]. cbn [objects _instances].
  split; [apply list_lookup_insert_eq; eapply lookup_lt_Some; exact Hn |].
  repeat split.
  - intros m Hm. apply list_lookup_insert_ne. congruence.
  - apply length_insert.
Qed.

(** Relabelling the leaf "A" of [three_leaves]. *)
Lemma as_frame_witness :
  exists st' o',
    as_ 2%nat (LStr "a") three_leaves = (OK 2%nat, st') /\
    objects st' !! 2%nat = Some o' /\ _label o' = Var "a" /\ _re o' = "A" /\
    objects st' !! 3%nat = objects three_leaves !! 3%nat.
Proof.
  destruct (as_frame three_leaves 2%nat _ (LStr "a") eq_refl)
    as (st' & o' & H & Ho & Hl & _ & _ & Hr & _ & Hm & _).
  exists st', o'. repeat split; try assumption. apply Hm. discriminate.
Defined.

End EzreClaims.

(** ** The order of [from_sequence] *)

Section StringOrder.

Lemma compare_refl (s : string) : String.compare s s = Eq.
Proof.
  pose proof (String.compare_antisym s s) as H.
  destruct (String.compare s s); cbn in H; congruence.
Qed.

Lemma compare_Lt_le (s1 s2 : string) :
  String.compare s1 s2 = Lt <-> String.le s1 s2 /\ s1 <> s2.
Proof.
  unfold String.le, String.leb. split.
  - intros H. rewrite H. split; [exact I |].
    intros ->. rewrite compare_refl in H. discriminate.
  - intros [Hle Hne]. destruct (String.compare s1 s2) eqn:E; [| reflexivity |].
    + apply String.compare_eq_iff in E. contradiction.
    + destruct Hle.
Qed.

Lemma compare_Lt_trans (s1 s2 s3 : string) :
  String.compare s1 s2 = Lt -> String.compare s2 s3 = Lt -> String.compare s1 s3 = Lt.
Proof.
  rewrite !compare_Lt_le. intros [H12 N12] [H23 N23]. split.
  - etransitivity; eassumption.
  - intros ->. apply N12. apply (anti_symm String.le); assumption.
Qed.

Lemma compare_Lt_total (s1 s2 : string) :
  s1 <> s2 -> String.compare s1 s2 = Lt \/ String.compare s2 s1 = Lt.
Proof.
  intros Hne. rewrite (String.compare_antisym s2 s1).
  destruct (String.compare s1 s2) eqn:E; cbn; auto.
  apply String.compare_eq_iff in E. contradiction.
Qed.

Lemma string_key_lt (s1 s2 : string) :
  Sorting.key_lt (EzreImpl.string_key s1) (EzreImpl.string_key s2) = true
  <-> longer_then_lexicographic s1 s2.
Proof.
  unfold Sorting.key_lt, EzreImpl.string_key, longer_then_lexicographic, String.ltb.
  cbn [fst snd]. rewrite orb_true_iff, andb_true_iff, Z.ltb_lt, Z.eqb_eq.
  destruct (String.compare s1 s2); split; intros [H | [H1 H2]];
    try (left; lia); try (right; split; [lia | congruence]); try discriminate.
Qed.

Lemma longer_irrefl (s : string) : ~ longer_then_lexicographic s s.
Proof.
  intros [H | [_ H]]; [lia | rewrite compare_refl in H; discriminate].
Qed.

Lemma longer_trans (s1 s2 s3 : string) :
  longer_then_lexicographic s1 s2 -> longer_then_lexicographic s2 s3 ->
  longer_then_lexicographic s1 s3.
Proof.
  intros [H12 | [E12 L12]] [H23 | [E23 L23]].
  - left; lia.
  - left; lia.
  - left; lia.
  - right. split; [lia | eapply compare_Lt_trans; eassumption].
Qed.

Lemma longer_total (s1 s2 : string) :
  s1 <> s2 -> longer_then_lexicographic s1 s2 \/ longer_then_lexicographic s2 s1.
Proof.
  intros Hne. unfold longer_then_lexicographic.
  destruct (lt_eq_lt_dec (String.length s1) (String.length s2)) as [[H | H] | H].
  - right; left; exact H.
  - destruct (compare_Lt_total s1 s2 Hne); [left | right]; right; split; auto.
  - left; left; exact H.
Qed.

End StringOrder.

Section SortedFacts.
Import EzreImpl.

Lemma insert_lt x y l :
  Sorting.key_lt (string_key y) (string_key x) = true ->
  Sorting.insert string_key x (y :: l) = y :: Sorting.insert string_key x l.
Proof. intros H. cbn [Sorting.insert]. rewrite H. reflexivity. Qed.

Lemma insert_not_lt x y l :
  Sorting.key_lt (string_key y) (string_key x) = false ->
  Sorting.insert string_key x (y :: l) = x :: y :: l.
Proof. intros H. cbn [Sorting.insert]. rewrite H. reflexivity. Qed.

Lemma insert_Permutation x l : Permutation (Sorting.insert string_key x l) (x :: l).
Proof.
  induction l as [| y l IH]; [reflexivity |].
  destruct (Sorting.key_lt (string_key y) (string_key x)) eqn:E.
  - rewrite (insert_lt _ _ _ E). rewrite IH. apply perm_swap.
  - rewrite (insert_not_lt _ _ _ E). reflexivity.
Qed.

Lemma sorted_Permutation l : Permutation (Sorting.sorted string_key l) l.
Proof.
  induction l as [| x l IH]; [reflexivity |].
  cbn [Sorting.sorted foldr]. rewrite insert_Permutation.
  apply perm_skip. exact IH.
Qed.

Lemma insert_StronglySorted x l :
  x ∉ l ->
  StronglySorted longer_then_lexicographic l ->
  StronglySorted longer_then_lexicographic (Sorting.insert string_key x l).
Proof.
  intros Hx Hl. induction Hl as [| y l Hl IH Hy].
  - repeat constructor.
  - apply not_elem_of_cons in Hx as [Hxy Hx].
    destruct (Sorting.key_lt (string_key y) (string_key x)) eqn:E.
    + rewrite (insert_lt _ _ _ E). apply string_key_lt in E.
      constructor; [exact (IH Hx) |].
      rewrite (insert_Permutation x l). constructor; assumption.
    + rewrite (insert_not_lt _ _ _ E).
      assert (Rxy : longer_then_lexicographic x y).
      { destruct (longer_total x y Hxy) as [H | H]; [exact H |].
        apply string_key_lt in H. congruence. }
      constructor; [constructor; assumption |].
      constructor; [exact Rxy |].
      eapply Forall_impl; [exact Hy |].
      intros z Hz. eapply longer_trans; eassumption.
Qed.

Lemma sorted_StronglySorted l :
  NoDup l -> StronglySorted longer_then_lexicographic (Sorting.sorted string_key l).
Proof.
  induction 1 as [| x l Hx _ IH]; [constructor |].
  cbn [Sorting.sorted foldr]. apply insert_StronglySorted; [| exact IH].
  fold (Sorting.sorted string_key l). rewrite sorted_Permutation. exact Hx.
Qed.

(** A list in this order is determined by its elements. *)
Lemma StronglySorted_unique l1 l2 :
  StronglySorted longer_then_lexicographic l1 ->
  StronglySorted longer_then_lexicographic l2 ->
  (forall s, s ∈ l1 <-> s ∈ l2) ->
  l1 = l2.
Proof.
  intros H1. revert l2.
  induction H1 as [| x1 l1 H1 IH F1]; intros l2 H2 Hel.
  - destruct l2 as [| x2 l2]; [reflexivity |].
    exfalso. eapply not_elem_of_nil. apply Hel. left.
  - destruct H2 as [| x2 l2 H2 F2].
    { exfalso. eapply not_elem_of_nil. apply Hel. left. }
    rewrite Forall_forall in F1, F2.
    assert (E : x1 = x2).
    { destruct (decide (x1 = x2)) as [E | N]; [exact E | exfalso].
      assert (R21 : longer_then_lexicographic x2 x1).
      { assert (Hin : x1 ∈ x2 :: l2) by (apply Hel; left).
        apply elem_of_cons in Hin as [? | Hin]; [contradiction |].
        apply F2, Hin. }
      assert (R12 : longer_then_lexicographic x1 x2).
      { assert (Hin : x2 ∈ x1 :: l1) by (apply Hel; left).
        apply elem_of_cons in Hin as [? | Hin]; [congruence |].
        apply F1, Hin. }
      exact (longer_irrefl x1 (longer_trans _ _ _ R12 R21)). }
    subst x2. f_equal. apply IH; [exact H2 |].
    intros s. split; intros Hs.
    + assert (Hin : s ∈ x1 :: l2) by (apply Hel; right; exact Hs).
      apply elem_of_cons in Hin as [-> | Hin]; [exfalso | exact Hin].
      apply (longer_irrefl x1), F1, Hs.
    + assert (Hin : s ∈ x1 :: l1) by (apply Hel; right; exact Hs).
      apply elem_of_cons in Hin as [-> | Hin]; [exfalso | exact Hin].
      apply (longer_irrefl x1), F2, Hs.
Qed.

(** The order in which a set yields its elements does not reach the
    sorted list. *)
Lemma sorted_enumeration l l' :
  NoDup l -> NoDup l' -> (forall s, s ∈ l <-> s ∈ l') ->
  Sorting.sorted string_key l = Sorting.sorted string_key l'.
Proof.
  intros Hl Hl' Hel.
  apply StronglySorted_unique; try (apply sorted_StronglySorted; assumption).
  intros s. rewrite !sorted_Permutation. apply Hel.
Qed.

End SortedFacts.

(** ** from_sequence *)

Section FromSequence.
Import Builtins EzreImpl.

(** Building the leaves, from left to right. *)
Lemma mapM_from_str texts st :
  exists st' leaves,
    mapM (fun s => from_str s None None) texts st
    = (OK (seq (length (objects st)) (length texts)), st') /\
    objects st' = objects st ++ leaves /\
    Forall2 is_leaf leaves texts.
Proof.
  revert st. induction texts as [| s texts IH]; intros st.
  - exists st, []. cbn. rewrite app_nil_r. repeat split. constructor.
  - cbn [mapM]. unfold from_str at 1.
    set (st1 := snd (__init__ (Str s) None None st)).
    destruct (IH st1) as (st' & leaves & Hrun & Hobj & Hleaves).
    assert (H1 : __init__ (Str s) None None st = (OK (length (objects st)), st1))
      by reflexivity.
    rewrite (bind_OK _ _ _ _ _ H1), (bind_OK _ _ _ _ _ Hrun).
    assert (Hlen : length (objects st1) = S (length (objects st))).
    { subst st1. cbn. rewrite length_app. cbn. lia. }
    rewrite Hlen. eexists st', (_ :: leaves). split; [reflexivity |].
    split.
    + rewrite Hobj. subst st1. cbn [__init__ snd objects].
      rewrite <- app_assoc. reflexivity.
    + constructor; [| exact Hleaves].
      repeat split. cbn. apply append_nil_r.
Qed.

Lemma leaves_re pre leaves texts st' :
  objects st' = pre ++ leaves ->
  Forall2 is_leaf leaves texts ->
  Forall2 (fun l s => exists o, objects st' !! l = Some o /\ is_leaf o s)
          (seq (length pre) (length texts)) texts.
Proof.
  intros Hobj H. revert pre Hobj.
  induction H as [| o s leaves texts Ho _ IH]; intros pre Hobj; [constructor |].
  cbn [length seq]. constructor.
  - exists o. split; [| exact Ho].
    rewrite Hobj. rewrite lookup_app_r by lia. now rewrite Nat.sub_diag.
  - specialize (IH (pre ++ [o])). rewrite length_app, Nat.add_1_r in IH.
    apply IH. rewrite Hobj, <- app_assoc. reflexivity.
Qed.

(** [from_sequence] on any store. *)
Lemma from_sequence_run expr label cardinality st :
  let texts := Sorting.sorted string_key (Sorting.set (List.map re.escape expr)) in
  let re_ := if (1 <? length texts)%nat then "(" +:+ join "|" texts +:+ ")"
             else join "|" texts in
  exists r st' o items,
    from_sequence expr label cardinality st = (OK r, st') /\
    objects st' !! r = Some o /\
    _expr o = Or items re_ /\
    _cardinality o = default CARDINALITY.One cardinality /\
    _re o = re_ +:+ _str (_cardinality o) /\
    Forall2 (fun l s => exists ol, objects st' !! l = Some ol /\ is_leaf ol s) items texts.
Proof.
  intros texts re_. unfold from_sequence. fold texts.
  destruct (mapM_from_str texts st) as (st1 & leaves & Hrun & Hobj & Hleaves).
  pose proof (leaves_re _ _ _ _ Hobj Hleaves) as Hre.
  rewrite (bind_OK _ _ _ _ _ Hrun).
  erewrite bind_OK.
  2:{ apply Or__init___run. eapply Forall2_impl; [exact Hre |].
      intros l s (o & Ho & _ & _ & Hr). rewrite (re_of_lookup _ _ _ Ho), Hr. reflexivity. }
  rewrite length_seq. fold re_.
  eexists _, _, _, _. split; [reflexivity |]. cbn [objects].
  split; [apply lookup_new |]. repeat split.
  eapply Forall2_impl; [exact Hre |].
  intros l s (o & Ho & Hl). exists o. split; [apply lookup_old; exact Ho | exact Hl].
Qed.

Lemma texts_elements expr s :
  s ∈ Sorting.sorted string_key (Sorting.set (List.map re.escape expr))
  <-> exists x, x ∈ expr /\ s = re.escape x.
Proof.
  rewrite sorted_Permutation. unfold Sorting.set. rewrite elem_of_remove_dups.
  rewrite list_elem_of_In, in_map_iff. setoid_rewrite <- list_elem_of_In.
  split; intros (x & H1 & H2); exists x; auto.
Qed.

(** C2. [from_sequence(expr)] escapes every string with [re.escape],
    keeps one of each (whatever the order in which the set yields
    them), sorts the escaped strings longer first and then in the order
    of [str], builds one leaf for each in that order and combines the
    leaves in one [Or]; [from_sequence(["c", "a", "ab"])] has the text
    "(ab|a|c)". *)
Theorem from_sequence_sorted (st : store) (expr : list string)
    (label : option label_arg) (cardinality : option Cardinality) :
  let texts := Sorting.sorted string_key (Sorting.set (List.map re.escape expr)) in
  let re_ := if (1 <? length texts)%nat then "(" +:+ join "|" texts +:+ ")"
             else join "|" texts in
  (forall s, s ∈ texts <-> exists x, x ∈ expr /\ s = re.escape x) /\
  NoDup texts /\
  StronglySorted longer_then_lexicographic texts /\
  (forall enumeration,
      NoDup enumeration ->
      (forall s, s ∈ enumeration <-> s ∈ List.map re.escape expr) ->
      Sorting.sorted string_key enumeration = texts) /\
  (exists r st' o items,
      from_sequence expr label cardinality st = (OK r, st') /\
      objects st' !! r = Some o /\
      _expr o = Or items re_ /\
      _re o = re_ +:+ _str (default CARDINALITY.One cardinality) /\
      Forall2 (fun l s => exists ol, objects st' !! l = Some ol /\ is_leaf ol s)
              items texts) /\
  rendered (from_sequence ["c"; "a"; "ab"] None None) st = Some "(ab|a|c)".
Proof.
  intros texts re_.
  assert (Hnd : NoDup (Sorting.set (List.map re.escape expr)))
    by apply NoDup_remove_dups.
  split; [apply texts_elements |].
  split; [subst texts; rewrite sorted_Permutation; exact Hnd |].
  split; [apply sorted_StronglySorted; exact Hnd |].
  split.
  { intros enumeration He Hel. apply sorted_enumeration; [exact He | exact Hnd |].
    intros s. rewrite Hel. unfold Sorting.set. now rewrite elem_of_remove_dups. }
  split.
  - destruct (from_sequence_run expr label cardinality st)
      as (r & st' & o & items & Hrun & Ho & He & Hc & Hr & Hl).
    exists r, st', o, items. rewrite Hc in Hr. repeat split; assumption.
  - destruct (from_sequence_run ["c"; "a"; "ab"] None None st)
      as (r & st' & o & items & Hrun & Ho & _ & Hc & Hr & _).
    rewrite (rendered_OK _ _ _ _ Hrun), (re_of_lookup _ _ _ Ho), Hr, Hc.
    reflexivity.
Qed.

(** The strings of [["c", "a", "ab"]], yielded in another order. *)
Lemma from_sequence_sorted_witness :
  NoDup ["ab"; "c"; "a"] /\
  (forall s, s ∈ ["ab"; "c"; "a"] <-> s ∈ List.map re.escape ["c"; "a"; "ab"]) /\
  Sorting.sorted string_key ["ab"; "c"; "a"] = ["ab"; "a"; "c"].
Proof.
  assert (Hnd : NoDup ["ab"; "c"; "a"]).
  { repeat constructor; rewrite ?elem_of_cons, ?elem_of_nil; intuition discriminate. }
  assert (Hel : forall s, s ∈ ["ab"; "c"; "a"] <-> s ∈ List.map re.escape ["c"; "a"; "ab"]).
  { intros s. change (List.map re.escape ["c"; "a"; "ab"]) with ["c"; "a"; "ab"].
    rewrite !elem_of_cons, !elem_of_nil. tauto. }
  split; [exact Hnd |]. split; [exact Hel |].
  destruct (from_sequence_sorted module_loaded ["c"; "a"; "ab"] None None)
    as (_ & _ & _ & H & _).
  exact (H ["ab"; "c"; "a"] Hnd Hel).
Defined.

Lemma NoDup_singleton_elements (l : list string) (s : string) :
  NoDup l -> (forall t, t ∈ l <-> t = s) -> l = [s].
Proof.
  intros Hnd Hel. destruct l as [| x l].
  - exfalso. eapply not_elem_of_nil. apply Hel. reflexivity.
  - assert (x = s) by (apply Hel; left). subst x. f_equal.
    destruct l as [| y l]; [reflexivity | exfalso].
    assert (y = s) by (apply Hel; right; left). subst y.
    apply NoDup_cons in Hnd as [Hnd _]. apply Hnd. left.
Qed.

(** C10. When the escaped strings are all the one string [s],
    [from_sequence] with the default cardinality has the text [s],
    without parentheses; on the empty sequence it has the empty text;
    and in every case the text of its [Or] is between parentheses
    exactly when the [Or] has more than one item. *)
Theorem from_sequence_few (st : store) (expr : list string)
    (label : option label_arg) (s : string) :
  ((forall t, t ∈ List.map re.escape expr <-> t = s) ->
   rendered (from_sequence expr label None) st = Some s) /\
  rendered (from_sequence [] label None) st = Some "" /\
  (forall cardinality,
      exists r st' o items texts,
        from_sequence expr label cardinality st = (OK r, st') /\
        objects st' !! r = Some o /\
        length items = length texts /\
        ((1 < length items)%nat ->
         _expr o = Or items ("(" +:+ join "|" texts +:+ ")")) /\
        ((length items <= 1)%nat -> _expr o = Or items (join "|" texts))).
Proof.
  split; [| split].
  - intros Hel.
    assert (E : Sorting.set (List.map re.escape expr) = [s]).
    { apply NoDup_singleton_elements; [apply NoDup_remove_dups |].
      intros t. unfold Sorting.set. rewrite elem_of_remove_dups. apply Hel. }
    destruct (from_sequence_run expr label None st)
      as (r & st' & o & items & Hrun & Ho & _ & Hc & Hr & _).
    rewrite (rendered_OK _ _ _ _ Hrun), (re_of_lookup _ _ _ Ho), Hr, Hc, E.
    cbn. now rewrite append_nil_r.
  - destruct (from_sequence_run [] label None st)
      as (r & st' & o & items & Hrun & Ho & _ & Hc & Hr & _).
    rewrite (rendered_OK _ _ _ _ Hrun), (re_of_lookup _ _ _ Ho), Hr, Hc.
    reflexivity.
  - intros cardinality.
    destruct (from_sequence_run expr label cardinality st)
      as (r & st' & o & items & Hrun & Ho & He & _ & _ & Hl).
    exists r, st', o, items, (Sorting.sorted string_key (Sorting.set (List.map re.escape expr))).
    pose proof (Forall2_length _ _ _ Hl) as Hlen.
    split; [exact Hrun |]. split; [exact Ho |]. split; [exact Hlen |].
    rewrite He, <- Hlen. split; intros H.
    + apply Nat.ltb_lt in H. rewrite H. reflexivity.
    + apply Nat.ltb_ge in H. rewrite H. reflexivity.
Qed.

(** [from_sequence(["a", "a"])] after the module is loaded. *)
Lemma from_sequence_few_witness :
  (forall t, t ∈ List.map re.escape ["a"; "a"] <-> t = "a") /\
  rendered (from_sequence ["a"; "a"] None None) module_loaded = Some "a".
Proof.
  assert (H : forall t, t ∈ List.map re.escape ["a"; "a"] <-> t = "a").
  { intros t. change (List.map re.escape ["a"; "a"]) with ["a"; "a"].
    rewrite !elem_of_cons, elem_of_nil. tauto. }
  split; [exact H |].
  exact (proj1 (from_sequence_few module_loaded ["a"; "a"] None "a") H).
Defined.

End FromSequence.

(** ** The examples of the documentation *)

Section DocumentedExamples.
Import EzreImpl.

Example One_built : CardinalityImpl.__init__ [PyInt 1; PyInt 1] = OK CARDINALITY.One.
Proof. reflexivity. Qed.
Example Many_built : CardinalityImpl.__init__ [PyInt 1; PyNone] = OK CARDINALITY.Many.
Proof. reflexivity. Qed.
Example Any_built : CardinalityImpl.__init__ [PyNone] = OK CARDINALITY.Any.
Proof. reflexivity. Qed.
Example Maybe_built : CardinalityImpl.__init__ [PyInt 1] = OK CARDINALITY.Maybe.
Proof. reflexivity. Qed.

(** The examples of the class documentation. *)
Example doc_1_2 : _str <$> CardinalityImpl.__init__ [PyInt 1; PyInt 2] = OK "{1,2}".
Proof. reflexivity. Qed.
Example doc_2_2 : _str <$> CardinalityImpl.__init__ [PyInt 2; PyInt 2] = OK "{2}".
Proof. reflexivity. Qed.
Example doc_2_None : _str <$> CardinalityImpl.__init__ [PyInt 2; PyNone] = OK "{2,}".
Proof. reflexivity. Qed.
Example doc_2 : _str <$> CardinalityImpl.__init__ [PyInt 2] = OK "{,2}".
Proof. reflexivity. Qed.
Example doc_1_2_min :
_str <$> CardinalityImpl.__init__ [PyInt 1; PyInt 2; PyBuiltin py_min] = OK "{1,2}?".
Proof. reflexivity. Qed.
Example doc_0_1_min :
_str <$> CardinalityImpl.__init__ [PyInt 0; PyInt 1; PyBuiltin py_min] = OK "??".
Proof. reflexivity. Qed.
Example doc_None_None_min :
_str <$> CardinalityImpl.__init__ [PyNone; PyNone; PyBuiltin py_min] = OK "*?".
Proof. reflexivity. Qed.
Example doc_0_0 : _str <$> CardinalityImpl.__init__ [PyInt 0; PyInt 0] = OK "{,0}".
Proof. reflexivity. Qed.
Example doc_hello :
CardinalityImpl.__init__ [PyNone; PyStr "hello"] = raise (ValueError invalid_literal_for_int).
Proof. reflexivity. Qed.
Example doc_step_1 :
CardinalityImpl.__init__ [PyNone; PyNone; PyInt 1] = raise (IndexError step_not_in_MinMax).
Proof. reflexivity. Qed.
Example doc_5_3 : CardinalityImpl.__init__ [PyInt 5; PyInt 3] = raise (IndexError range_must_hold).
Proof. reflexivity. Qed.
Example doc_5_5_min :
CardinalityImpl.__init__ [PyInt 5; PyInt 5; PyBuiltin py_min]
= raise (ValueError step_cannot_be_used).
Proof. reflexivity. Qed.
Example int_spaced : Builtins.int (PyStr " +1_000 ") = OK 1000.
Proof. reflexivity. Qed.
Example int_empty : Builtins.int (PyStr "") = raise (ValueError invalid_literal_for_int).
Proof. reflexivity. Qed.

Example doc_from_sequence_order :
rendered (from_sequence ["c"; "a"; "ab"] None None) module_loaded = Some "(ab|a|c)".
Proof. vm_compute. reflexivity. Qed.

Example doc_from_sequence_special :
rendered (from_sequence ["M*"; "r\"; "?"; "U"; "1"] None None) module_loaded
= Some "(M\*|r\\|\?|1|U)".
Proof. vm_compute. reflexivity. Qed.

Example doc_addition :
rendered (do a <- from_sequence ["A"; "B"] (Some (LStr "a")) None;
          do x <- from_sequence ["X"; "Y"] (Some (LStr "x")) None;
          __add__ a (Some x)) module_loaded
= Some "(A|B)(X|Y)".
Proof. vm_compute. reflexivity. Qed.

Example doc_precedence :
rendered (do a <- from_sequence ["A"; "B"] (Some (LStr "a")) None;
          do x <- from_sequence ["X"; "Y"] (Some (LStr "x")) None;
          do ax <- __add__ a (Some x);
          __or__ ax x) module_loaded
= Some "((A|B)(X|Y)|(X|Y))".
Proof. vm_compute. reflexivity. Qed.

Example doc_cardinality :
rendered (do a <- from_sequence ["A"; "B"] (Some (LStr "a")) None;
          do x <- from_sequence ["X"; "Y"] (Some (LStr "x")) None;
          do a' <- __getitem__ a (PySlice PyNone PyNone PyNone);
          do x' <- __getitem__ x (PyInt 3);
          __add__ a' (Some x')) module_loaded
= Some "(A|B)*(X|Y){3}".
Proof. vm_compute. reflexivity. Qed.

Example doc_group :
rendered (do a <- from_str "A" None None; group a "n") module_loaded = Some "(?P<n>A)".
Proof. vm_compute. reflexivity. Qed.

Example doc_label_precedence :
LabelImpl.__repr__
  (LabelImpl.__or__ (LabelImpl.__add__ (Var "A") (Var "B")) (Var "C")) = "(AB|C)"
/\ LabelImpl.__repr__
     (LabelImpl.__add__ (Var "A") (LabelImpl.__or__ (Var "B") (Var "C"))) = "A(B|C)".
Proof. split; reflexivity. Qed.

End DocumentedExamples.

(** * Further properties *)

(** ** Cardinality: what a construction leaves *)

Section CardinalityMore.
Import Builtins CardinalityImpl.

(** X1. A constructed cardinality has [0 <= start <= stop], is not greedy
    on a fixed count, and its text is the quantifier of its own bounds
    followed by the non-greedy mark of its own step. *)
Theorem Cardinality_invariant (slice_args : list pyobj) (c : Cardinality) :
  __init__ slice_args = OK c ->
  range_holds (start c) (stop c) /\
  (stop c = Fin (start c) -> step c = py_max) /\
  _str c = quantifier (start c) (stop c)
           +:+ non_greedy_option (start c) (stop c) (step c).
Proof.
  intros H.
  destruct (init_OK_inv _ _ H) as (a & b & s & m & n & f & _ & _ & _ & _ & H0 & Hle & Hg & ->).
  cbn [start stop step _str]. split; [| split; [| reflexivity]].
  - apply range_holds_spec. rewrite Hle. apply Z.leb_le in H0. now rewrite H0.
  - intros ->. destruct f; [| reflexivity].
    cbn in Hg. rewrite Z.eqb_refl in Hg. discriminate.
Qed.

Lemma Cardinality_invariant_witness :
  let c := {| _str := "{2,5}?"; start := 2; stop := Fin 5; step := py_min |} in
  __init__ [PyInt 2; PyInt 5; PyBuiltin py_min] = OK c /\ range_holds 2 (Fin 5).
Proof.
  intros c. split; [reflexivity |].
  exact (proj1 (Cardinality_invariant [PyInt 2; PyInt 5; PyBuiltin py_min] c eq_refl)).
Defined.

(** X2. Building a cardinality again from its own attributes, with [None]
    for an unbounded stop, gives the same cardinality. *)
Theorem Cardinality_rebuild (slice_args : list pyobj) (c : Cardinality) :
  __init__ slice_args = OK c ->
  __init__ [PyInt (start c); stop_arg (stop c); PyBuiltin (step c)] = OK c.
Proof.
  intros H.
  destruct (init_OK_inv _ _ H) as (a & b & s & m & n & f & _ & _ & _ & _ & H0 & Hle & Hg & ->).
  cbn [start stop step]. unfold __init__.
  assert (Hn : typed_stop (stop_arg n) = inr n) by (destruct n; reflexivity).
  repeat (unfold OK, raise; cbn [slice typed_start is_None int rbind]).
  rewrite Hn. cbn [rbind typed_step is_None as_MinMax].
  apply Z.leb_le in H0. rewrite H0, Hle, Hg. reflexivity.
Qed.

Lemma Cardinality_rebuild_witness :
  let c := {| _str := "{2,}"; start := 2; stop := oo; step := py_max |} in
  __init__ [PyStr " 2 "; PyNone] = OK c /\
  __init__ [PyInt 2; PyNone; PyBuiltin py_max] = OK c.
Proof.
  intros c. split; [reflexivity |].
  exact (Cardinality_rebuild [PyStr " 2 "; PyNone] c eq_refl).
Defined.

(** The one-argument form gives the stop: [Cardinality(b)] is
    [Cardinality(None, b)] and [Cardinality(0, b)]; and leaving the step
    out, giving [None] and giving [max] are the same construction. *)
Theorem Cardinality_defaults (a b s : pyobj) :
  __init__ [b] = __init__ [PyNone; b] /\
  __init__ [PyNone; b; s] = __init__ [PyInt 0; b; s] /\
  __init__ [a; b] = __init__ [a; b; PyNone] /\
  __init__ [a; b; PyNone] = __init__ [a; b; PyBuiltin py_max].
Proof. repeat split. Qed.

(** X3. Asking for the greedy variant of bounds that are not a fixed count
    appends "?" to the text those bounds have without it, and changes
    nothing else; on a fixed count it is refused. *)
Theorem Cardinality_min_appends (a b : pyobj) (c : Cardinality) :
  __init__ [a; b] = OK c ->
  (stop c <> Fin (start c) ->
   __init__ [a; b; PyBuiltin py_min]
   = OK {| _str := _str c +:+ "?"; start := start c; stop := stop c; step := py_min |}) /\
  (stop c = Fin (start c) -> __init__ [a; b; PyBuiltin py_min] = raise GreedinessError).
Proof.
  unfold __init__. repeat (unfold OK, raise; cbn [slice rbind]).
  destruct (typed_start a) as [e | m]; [discriminate |]. cbn [rbind].
  destruct (typed_stop b) as [e | n]; [discriminate |]. cbn [rbind typed_step is_None as_MinMax].
  destruct ((0 <=? m) && le_CompleteIN m n); cbn [negb]; [| discriminate].
  cbn [is_min]. rewrite andb_false_r. intros [= <-]. cbn [start stop _str].
  split; intros Hs.
  - apply eq_CompleteIN_false in Hs. rewrite Hs. cbn [andb].
    unfold non_greedy_option. rewrite Hs. cbn [negb andb is_min].
    now rewrite append_nil_r.
  - apply eq_CompleteIN_true in Hs. rewrite Hs. reflexivity.
Qed.

Lemma Cardinality_min_appends_witness :
  __init__ [PyNone; PyInt 2; PyBuiltin py_min]
  = OK {| _str := "{,2}?"; start := 0; stop := Fin 2; step := py_min |} /\
  __init__ [PyInt 2; PyInt 2; PyBuiltin py_min] = raise GreedinessError.
Proof.
  split.
  - refine (proj1 (Cardinality_min_appends PyNone (PyInt 2) _ eq_refl) _). discriminate.
  - exact (proj2 (Cardinality_min_appends (PyInt 2) (PyInt 2) _ eq_refl) eq_refl).
Defined.

(** Decimal texts. *)
Lemma all_digits_uint (d : Decimal.uint) : all_digits (NilEmpty.string_of_uint d) = true.
Proof. induction d; cbn; auto. Qed.

Lemma str_int_digits (k : Z) : 0 <= k -> all_digits (str_int k) = true.
Proof.
  intros Hk. unfold str_int. destruct k as [| p | p]; [reflexivity | | lia].
  cbn [Z.to_int NilZero.string_of_int]. unfold NilZero.string_of_uint.
  destruct (Pos.to_uint p); try apply all_digits_uint. reflexivity.
Qed.

Lemma str_int_not_empty (k : Z) : str_int k <> "".
Proof.
  unfold str_int. destruct k as [| p | p]; [discriminate | | discriminate].
  cbn [Z.to_int NilZero.string_of_int]. unfold NilZero.string_of_uint.
  destruct (Pos.to_uint p); discriminate.
Qed.

Lemma str_int_inj (k k' : Z) : str_int k = str_int k' -> k = k'.
Proof.
  unfold str_int. intros H. apply DecimalZ.to_int_inj.
  assert (Hn : forall z, Z.to_int z <> Decimal.Pos Decimal.Nil /\
                         Z.to_int z <> Decimal.Neg Decimal.Nil).
  { intros [| p | p]; cbn; split; try discriminate;
      intros [= E]; exact (DecimalPos.Unsigned.to_uint_nonnil p E). }
  apply (f_equal NilZero.int_of_string) in H.
  rewrite !NilZero.isi in H by apply Hn. congruence.
Qed.

Lemma append_String c (r x : string) : String c r +:+ x = String c (r +:+ x).
Proof. reflexivity. Qed.

Lemma append_assoc_r (s1 s2 s3 : string) : (s1 +:+ s2) +:+ s3 = s1 +:+ (s2 +:+ s3).
Proof.
  induction s1 as [| c s1 IH]; [reflexivity |].
  rewrite !append_String. f_equal. exact IH.
Qed.

Lemma span_digits_app (d : string) c (x : string) :
  all_digits d = true -> is_digit c = false ->
  span_digits (d +:+ String c x) = (d, String c x).
Proof.
  intros Hd Hc. induction d as [| c0 d IH].
  - change ("" +:+ String c x) with (String c x). cbn [span_digits]. now rewrite Hc.
  - cbn [all_digits] in Hd. apply andb_prop in Hd as [Hc0 Hd].
    rewrite append_String. cbn [span_digits]. rewrite Hc0, (IH Hd). reflexivity.
Qed.

(** [read_text] on the two shapes between braces. *)
Lemma read_text_pair (d1 d2 g : string) :
  all_digits d1 = true -> all_digits d2 = true ->
  read_text ("{" +:+ d1 +:+ "," +:+ d2 +:+ "}" +:+ g) = (or_text d1 "0", or_text d2 "inf", g).
Proof.
  intros H1 H2.
  change ("{" +:+ d1 +:+ "," +:+ d2 +:+ "}" +:+ g)
    with (String "{" (d1 +:+ String "," (d2 +:+ String "}" g))).
  cbn [read_text Ascii.eqb Bool.eqb].
  rewrite (span_digits_app d1 "," _ H1 eq_refl). cbn [fst snd Ascii.eqb Bool.eqb].
  rewrite (span_digits_app d2 "}" _ H2 eq_refl). reflexivity.
Qed.

Lemma read_text_single (d g : string) :
  all_digits d = true ->
  read_text ("{" +:+ d +:+ "}" +:+ g) = (d, d, g).
Proof.
  intros H.
  change ("{" +:+ d +:+ "}" +:+ g) with (String "{" (d +:+ String "}" g)).
  cbn [read_text Ascii.eqb Bool.eqb].
  rewrite (span_digits_app d "}" _ H eq_refl). reflexivity.
Qed.

Lemma or_text_str_int k other : or_text (str_int k) other = str_int k.
Proof.
  pose proof (str_int_not_empty k). unfold or_text.
  destruct (str_int k); [contradiction | reflexivity].
Qed.

(** The text of valid bounds reads back as these bounds. *)
Lemma read_text_quantifier m n f :
  range_holds m n ->
  read_text (quantifier m n +:+ non_greedy_option m n f)
  = (str_int m, str_CompleteIN n, non_greedy_option m n f).
Proof.
  intros [Hm Hn]. unfold quantifier.
  destruct (Z.eqb_spec m 0) as [-> | Hm0]; [| destruct (Z.eqb_spec m 1) as [-> | Hm1]].
  - destruct n as [k |]; [| reflexivity]. cbn [eq_CompleteIN is_oo str_CompleteIN].
    destruct (Z.eqb_spec 1 k) as [<- | Hk]; [reflexivity |].
    rewrite !append_assoc_r.
    change ("{," +:+ str_int k +:+ "}" +:+ non_greedy_option 0 (Fin k) f)
      with ("{" +:+ "" +:+ "," +:+ str_int k +:+ "}" +:+ non_greedy_option 0 (Fin k) f).
    rewrite read_text_pair by (try apply str_int_digits; auto).
    now rewrite or_text_str_int.
  - destruct n as [k |]; [| reflexivity]. cbn [eq_CompleteIN is_oo str_CompleteIN].
    destruct (Z.eqb_spec 1 k) as [<- | Hk]; [reflexivity |].
    rewrite !append_assoc_r.
    rewrite read_text_pair by (apply str_int_digits; lia).
    now rewrite !or_text_str_int.
  - destruct n as [k |]; cbn [eq_CompleteIN is_oo str_CompleteIN].
    + destruct (Z.eqb_spec m k) as [<- | Hk].
      * rewrite !append_assoc_r. rewrite read_text_single by (apply str_int_digits; lia).
        unfold non_greedy_option. cbn [eq_CompleteIN]. rewrite Z.eqb_refl. reflexivity.
      * rewrite !append_assoc_r.
        rewrite read_text_pair by (apply str_int_digits; lia).
        now rewrite !or_text_str_int.
    + rewrite !append_assoc_r.
      change (",}" +:+ non_greedy_option m oo f)
        with ("," +:+ "" +:+ "}" +:+ non_greedy_option m oo f).
      rewrite read_text_pair by (try apply str_int_digits; auto).
      now rewrite or_text_str_int.
Qed.

Lemma str_CompleteIN_inj n n' :
  (forall k, n = Fin k -> 0 <= k) -> (forall k, n' = Fin k -> 0 <= k) ->
  str_CompleteIN n = str_CompleteIN n' -> n = n'.
Proof.
  intros Hn Hn'. destruct n as [k |], n' as [k' |]; cbn [str_CompleteIN]; intros H.
  - f_equal. apply str_int_inj, H.
  - pose proof (str_int_digits k (Hn k eq_refl)) as Hd. rewrite H in Hd. discriminate.
  - pose proof (str_int_digits k' (Hn' k' eq_refl)) as Hd. rewrite <- H in Hd. discriminate.
  - reflexivity.
Qed.

(** X4. Equality of cardinalities, which compares texts, is equality of
    start, stop and step on the cardinalities that constructions return;
    and the empty text is the text of the bounds (1, 1) only. *)
Theorem Cardinality_eq_structural (args1 args2 : list pyobj) (c1 c2 : Cardinality) :
  __init__ args1 = OK c1 -> __init__ args2 = OK c2 ->
  (__eq__ c1 (PyCardinality c2) = true <-> c1 = c2) /\
  (_str c1 = "" <-> start c1 = 1 /\ stop c1 = Fin 1).
Proof.
  assert (Hinj : forall a1 a2 d1 d2,
             __init__ a1 = OK d1 -> __init__ a2 = OK d2 -> _str d1 = _str d2 -> d1 = d2).
  { assert (Hv : forall args d,
               __init__ args = OK d ->
               range_holds (start d) (stop d) /\
               (stop d = Fin (start d) -> step d = py_max) /\
               _str d = quantifier (start d) (stop d)
                        +:+ non_greedy_option (start d) (stop d) (step d)).
    { intros args d H.
      destruct (init_OK_inv _ _ H)
        as (a & b & s & m & n & f & _ & _ & _ & _ & H0 & Hle & Hg & ->).
      cbn [start stop step _str]. split; [| split; [| reflexivity]].
      - apply range_holds_spec. rewrite Hle. apply Z.leb_le in H0. now rewrite H0.
      - intros ->. destruct f; [| reflexivity].
        cbn in Hg. rewrite Z.eqb_refl in Hg. discriminate. }
    intros a1 a2 d1 d2 H1 H2 E.
    destruct (Hv _ _ H1) as (R1 & G1 & S1).
    destruct (Hv _ _ H2) as (R2 & G2 & S2).
    pose proof (f_equal read_text E) as Er.
    rewrite S1, S2, !read_text_quantifier in Er by assumption.
    injection Er as Em En Eg.
    apply str_int_inj in Em.
    apply str_CompleteIN_inj in En;
      [| intros k Hk; destruct R1 as [? R1]; rewrite Hk in R1; lia
       | intros k Hk; destruct R2 as [? R2]; rewrite Hk in R2; lia].
    assert (Ef : step d1 = step d2).
    { rewrite <- Em, <- En in Eg. unfold non_greedy_option in Eg.
      destruct (eq_CompleteIN (start d1) (stop d1)) eqn:Eq.
      - apply eq_CompleteIN_true in Eq. rewrite (G1 Eq).
        rewrite En, Em in Eq. now rewrite (G2 Eq).
      - cbn [negb andb] in Eg. destruct (step d1), (step d2); cbn in Eg; congruence. }
    destruct d1, d2. cbn in *. congruence. }
  intros H1 H2. split.
  - cbn [__eq__]. rewrite bool_decide_eq_true. unfold __str__.
    split; [apply (Hinj _ _ _ _ H1 H2) | intros ->; reflexivity].
  - split.
    + intros E.
      assert (c1 = CARDINALITY.One)
        by (apply (Hinj args1 [PyInt 1; PyInt 1] _ _ H1 eq_refl); exact E).
      subst c1. split; reflexivity.
    + intros [Hm Hn].
      destruct (init_OK_inv _ _ H1) as (a & b & s & m & n & f & _ & _ & _ & _ & _ & _ & _ & ->).
      cbn [start stop _str] in *. subst m n. reflexivity.
Qed.

Lemma Cardinality_eq_structural_witness :
  let c1 := {| _str := "{,2}"; start := 0; stop := Fin 2; step := py_max |} in
  let c2 := {| _str := "{2}"; start := 2; stop := Fin 2; step := py_max |} in
  __init__ [PyInt 2] = OK c1 /\ __init__ [PyInt 2; PyInt 2] = OK c2 /\
  __eq__ c1 (PyCardinality c2) = false.
Proof.
  intros c1 c2. split; [reflexivity |]. split; [reflexivity |].
  destruct (Cardinality_eq_structural [PyInt 2] [PyInt 2; PyInt 2] c1 c2 eq_refl eq_refl)
    as [[H _] _].
  destruct (__eq__ c1 (PyCardinality c2)); [| reflexivity].
  specialize (H eq_refl). discriminate.
Defined.

End CardinalityMore.

(** ** Ezre: the operators that the claims leave out *)

Section EzreMore.
Import Builtins EzreImpl.

(** X5. [a + b] on two nodes has the text of [a] followed by the text of
    [b]; so concatenation is associative on texts, and [None + a + None]
    is the text of [a] between "^" and "$". *)
Theorem add_pattern (st : store) (a b c : loc) (oa ob oc : Ezre) :
  reachable st ->
  objects st !! a = Some oa -> objects st !! b = Some ob -> objects st !! c = Some oc ->
  (exists r st' o,
      __add__ a (Some b) st = (OK r, st') /\ objects st' !! r = Some o /\
      ~ is_node st r /\
      _expr o = And [a; b] (_re oa +:+ _re ob) /\
      _cardinality o = CARDINALITY.One /\
      _re o = _re oa +:+ _re ob) /\
  rendered (do ab <- __add__ a (Some b); __add__ ab (Some c)) st
  = Some (_re oa +:+ _re ob +:+ _re oc) /\
  rendered (do bc <- __add__ b (Some c); __add__ a (Some bc)) st
  = Some (_re oa +:+ _re ob +:+ _re oc) /\
  rendered (do x <- __radd__ a; __add__ x None) st = Some ("^" +:+ _re oa +:+ "$").
Proof.
  intros Hst Ha Hb Hc.
  destruct (reachable_anchors st Hst) as (ob0 & oe & Hb0 & _ & Rb & He & _ & Re).
  split; [| split; [| split]].
  - eexists _, _, _. split; [apply (add_run st a (Some b) _ _ Ha Hb) |].
    cbn [objects]. split; [apply lookup_new |].
    split; [unfold is_node; lia |]. cbn [_expr _cardinality _re].
    rewrite append_nil_r. repeat split.
  - erewrite rendered_OK.
    2:{ rewrite (bind_OK _ _ _ _ _ (add_run st a (Some b) _ _ Ha Hb)).
        apply (add_run _ _ (Some c)); cbn [objects];
          [apply lookup_new | apply lookup_old; exact Hc]. }
    unfold re_of. cbn [objects]. rewrite lookup_new.
    cbn [fmap option_fmap option_map _re join String.concat].
    rewrite !append_nil_r. cbn. now rewrite append_assoc_r.
  - erewrite rendered_OK.
    2:{ rewrite (bind_OK _ _ _ _ _ (add_run st b (Some c) _ _ Hb Hc)).
        apply (add_run _ a (Some _)); cbn [objects];
          [apply lookup_old; exact Ha | apply lookup_new]. }
    unfold re_of. cbn [objects]. rewrite lookup_new.
    cbn [fmap option_fmap option_map _re join String.concat].
    rewrite !append_nil_r. reflexivity.
  - erewrite rendered_OK.
    2:{ unfold __radd__.
        rewrite (bind_OK _ _ _ _ _ (add_run st EZRE.Begin (Some a) _ _ Hb0 Ha)).
        apply (add_run _ _ None); cbn [objects];
          [apply lookup_new | apply lookup_old; exact He]. }
    unfold re_of. cbn [objects]. rewrite lookup_new.
    cbn [fmap option_fmap option_map _re join String.concat].
    rewrite !append_nil_r, Rb, Re. cbn. now rewrite append_assoc_r.
Qed.

(** The three leaves of [three_leaves], concatenated and anchored. *)
Lemma add_pattern_witness :
  reachable three_leaves /\
  rendered (do ab <- __add__ 2%nat (Some 3%nat); __add__ ab (Some 4%nat)) three_leaves
  = Some "ABC" /\
  rendered (do x <- __radd__ 2%nat; __add__ x None) three_leaves = Some "^A$".
Proof.
  assert (R : reachable three_leaves).
  { apply (reachable_call _ (call_from_str "C" None None)); [| exact I].
    apply (reachable_call _ (call_from_str "B" None None)); [| exact I].
    apply (reachable_call _ (call_from_str "A" None None)); [| exact I].
    apply reachable_loaded. }
  split; [exact R |].
  destruct (add_pattern three_leaves 2%nat 3%nat 4%nat _ _ _ R eq_refl eq_refl eq_refl)
    as (_ & H1 & _ & H2).
  split; [exact H1 | exact H2].
Defined.

(** What [Ezre.__init__] adds to a store. *)
Lemma init_spec e l k st :
  exists o,
    __init__ e l k st = (OK (length (objects st)), snd (__init__ e l k st)) /\
    objects (snd (__init__ e l k st)) = objects st ++ [o] /\
    _expr o = e /\ _cardinality o = default CARDINALITY.One k /\
    _re o = expr_re e +:+ _str (default CARDINALITY.One k) /\
    _label o = as_label (label_or l (size (_instances st))) /\
    _id o = size (_instances st).
Proof. eexists. repeat split. Qed.

(** [n.group(name)] on a node. *)
Lemma group_spec (st : store) (n : loc) (o : Ezre) (name : string) :
  objects st !! n = Some o ->
  exists r st' g,
    group n name st = (OK r, st') /\
    ~ is_node st r /\
    objects st' !! r = Some g /\
    _re g = "(?P<" +:+ name +:+ ">" +:+ _re o +:+ ")" /\
    _expr g = And [length (objects st); n; S (length (objects st))] (_re g) /\
    re_of st' (length (objects st)) = Some ("(?P<" +:+ name +:+ ">") /\
    re_of st' (S (length (objects st))) = Some ")" /\
    _label g = _label o /\
    _cardinality g = CARDINALITY.One /\
    length (objects st') = (length (objects st) + 3)%nat /\
    grows st st'.
Proof.
  intros Hn. unfold group, from_str.
  destruct (init_spec (Str ("(?P<" +:+ name +:+ ">")) None None st)
    as (o1 & H1 & O1 & E1 & _ & R1 & _).
  set (st1 := snd (__init__ (Str ("(?P<" +:+ name +:+ ">")) None None st)) in *.
  destruct (init_spec (Str ")") None None st1) as (o2 & H2 & O2 & E2 & _ & R2 & _).
  set (st2 := snd (__init__ (Str ")") None None st1)) in *.
  assert (L1 : length (objects st1) = S (length (objects st)))
    by (rewrite O1, length_app; cbn; lia).
  assert (L2 : length (objects st2) = S (S (length (objects st))))
    by (rewrite O2, length_app, L1; cbn; lia).
  cbn [expr_re default] in R1, R2. rewrite append_nil_r in R1, R2.
  assert (Hn2 : objects st2 !! n = Some o).
  { rewrite O2, O1. apply lookup_old, lookup_old, Hn. }
  assert (Ho1 : objects st2 !! length (objects st) = Some o1).
  { rewrite O2, O1. apply lookup_old, lookup_new. }
  assert (Ho2 : objects st2 !! S (length (objects st)) = Some o2).
  { rewrite O2, <- L1. apply lookup_new. }
  rewrite L1 in H2.
  destruct (init_spec (And [length (objects st); n; S (length (objects st))]
                         (join "" [_re o1; _re o; _re o2]))
                      (Some (LLabel (_label o))) None st2)
    as (g & H3 & O3 & E3 & C3 & R3 & Lg & _).
  set (st3 := snd (__init__ _ (Some (LLabel (_label o))) None st2)) in *.
  assert (Hrun : (do start <- __init__ (Str ("(?P<" +:+ name +:+ ">")) None None;
                  do end_ <- __init__ (Str ")") None None;
                  do expr <- And__init__ [start; n; end_];
                  do l <- label n; __init__ expr (Some (LLabel l)) None) st
                 = (OK (length (objects st2)), st3)).
  { rewrite (bind_OK _ _ _ _ _ H1), (bind_OK _ _ _ _ _ H2).
    erewrite bind_OK.
    2:{ apply And__init___run.
        constructor; [| constructor; [| constructor; [| constructor]]];
          apply re_of_lookup; eassumption. }
    rewrite (bind_OK _ _ _ _ _ (label_Some _ _ _ Hn2)). exact H3. }
  assert (Hre : _re g = "(?P<" +:+ name +:+ ">" +:+ _re o +:+ ")").
  { rewrite R3, R1, R2. cbn [expr_re default join String.concat CARDINALITY.One _str].
    rewrite append_nil_r.
    change ("" +:+ _re o +:+ "" +:+ ")") with (_re o +:+ ")").
    now rewrite !append_assoc_r. }
  exists (length (objects st2)), st3, g.
  split; [exact Hrun |]. split; [unfold is_node; lia |].
  split; [rewrite O3; apply lookup_new |].
  split; [exact Hre |].
  split.
  { rewrite E3. f_equal. rewrite R3. cbn [expr_re default CARDINALITY.One _str].
    now rewrite append_nil_r. }
  split; [rewrite (re_of_lookup st3 _ o1), R1; [reflexivity | rewrite O3; apply lookup_old, Ho1] |].
  split; [rewrite (re_of_lookup st3 _ o2), R2; [reflexivity | rewrite O3; apply lookup_old, Ho2] |].
  split; [exact Lg |]. split; [exact C3 |]. split.
  - rewrite O3, length_app, L2. cbn. lia.
  - intros l x Hl. rewrite O3, O2, O1. apply lookup_old, lookup_old, lookup_old, Hl.
Qed.

(** X6. [n.group(name)] returns a new node whose text is the text of [n]
    between "(?P<name>" and ")", with the label of [n] and no quantifier;
    it adds two leaves and the node, and every object of the store stays
    as it was. *)
Theorem group_pattern (st : store) (n : loc) (o : Ezre) (name : string) :
  objects st !! n = Some o ->
  exists r st' g,
    group n name st = (OK r, st') /\
    ~ is_node st r /\
    objects st' !! r = Some g /\
    _re g = "(?P<" +:+ name +:+ ">" +:+ _re o +:+ ")" /\
    _expr g = And [length (objects st); n; S (length (objects st))] (_re g) /\
    re_of st' (length (objects st)) = Some ("(?P<" +:+ name +:+ ">") /\
    re_of st' (S (length (objects st))) = Some ")" /\
    _label g = _label o /\
    _cardinality g = CARDINALITY.One /\
    length (objects st') = (length (objects st) + 3)%nat /\
    grows st st'.
Proof. exact (group_spec st n o name). Qed.

(** A named group around the leaf "A" of [three_leaves]. *)
Lemma group_pattern_witness :
  rendered (group 2%nat "word") three_leaves = Some "(?P<word>A)".
Proof.
  destruct (group_pattern three_leaves 2%nat _ "word" eq_refl)
    as (r & st' & g & Hrun & _ & Hg & Hre & _).
  rewrite (rendered_OK _ _ _ _ Hrun), (re_of_lookup _ _ _ Hg), Hre. reflexivity.
Defined.

(** X7. Indexing with an integer: a negative one is refused with the
    error of a range and the store is left as it is; 1 gives the node
    itself; 0 gives the text of the [expr] followed by "{,0}"; a greater
    one gives it followed by "{k}". *)
Theorem getitem_int (st : store) (n : loc) (o : Ezre) (k : Z) :
  objects st !! n = Some o ->
  (k < 0 -> __getitem__ n (PyInt k) st = (raise RangeError, st)) /\
  (k = 1 -> __getitem__ n (PyInt k) st = (OK n, st)) /\
  (k = 0 -> rendered (__getitem__ n (PyInt k)) st = Some (expr_re (_expr o) +:+ "{,0}")) /\
  (1 < k -> rendered (__getitem__ n (PyInt k)) st
            = Some (expr_re (_expr o) +:+ "{" +:+ str_int k +:+ "}")).
Proof.
  intros Hn. split; [| split; [| split]].
  - intros Hk. unfold __getitem__, bind, lift, typed_cardinality, CardinalityImpl.__init__.
    repeat (unfold OK, raise;
            cbn [slice rbind CardinalityImpl.typed_start CardinalityImpl.typed_stop
                 CardinalityImpl.is_None int CardinalityImpl.typed_step
                 CardinalityImpl.as_MinMax]).
    destruct (Z.leb_spec 0 k); [lia | reflexivity].
  - intros ->. exact (getitem_run_One st n (PyInt 1) CARDINALITY.One eq_refl eq_refl).
  - intros ->.
    rewrite (rendered_OK _ _ _ _
               (getitem_run_other st n o (PyInt 0) _ eq_refl eq_refl Hn)).
    unfold re_of. cbn [objects]. rewrite lookup_new. reflexivity.
  - intros Hk.
    assert (Hc : typed_cardinality (PyInt k)
                 = OK {| _str := "{" +:+ str_int k +:+ "}"; start := k; stop := Fin k;
                         step := py_max |}).
    { unfold typed_cardinality, CardinalityImpl.__init__.
      repeat (unfold OK, raise;
              cbn [slice rbind CardinalityImpl.typed_start CardinalityImpl.typed_stop
                   CardinalityImpl.is_None int CardinalityImpl.typed_step
                   CardinalityImpl.as_MinMax CardinalityImpl.le_CompleteIN
                   CardinalityImpl.eq_CompleteIN CardinalityImpl.is_min]).
      destruct (Z.leb_spec 0 k); [| lia]. rewrite Z.leb_refl, andb_false_r. cbn [andb negb].
      rewrite quantifier_m_m by lia. unfold CardinalityImpl.non_greedy_option.
      cbn [CardinalityImpl.eq_CompleteIN]. rewrite Z.eqb_refl. cbn [negb andb].
      now rewrite append_nil_r. }
    assert (Hne : CardinalityImpl.__eq__
                    {| _str := "{" +:+ str_int k +:+ "}"; start := k; stop := Fin k;
                       step := py_max |} (PyCardinality CARDINALITY.One) = false)
      by reflexivity.
    rewrite (rendered_OK _ _ _ _ (getitem_run_other st n o (PyInt k) _ Hc Hne Hn)).
    unfold re_of. cbn [objects]. rewrite lookup_new. reflexivity.
Qed.

(** The leaf "A" of [three_leaves], indexed with -1, 0 and 3. *)
Lemma getitem_int_witness :
  __getitem__ 2%nat (PyInt (-1)) three_leaves = (raise RangeError, three_leaves) /\
  rendered (__getitem__ 2%nat (PyInt 0)) three_leaves = Some "A{,0}" /\
  rendered (__getitem__ 2%nat (PyInt 3)) three_leaves = Some "A{3}".
Proof.
  split; [| split].
  - refine (proj1 (getitem_int three_leaves 2%nat _ (-1) eq_refl) _). lia.
  - exact (proj1 (proj2 (proj2 (getitem_int three_leaves 2%nat _ 0 eq_refl))) eq_refl).
  - refine (proj2 (proj2 (proj2 (getitem_int three_leaves 2%nat _ 3 eq_refl))) _). lia.
Defined.

Lemma getitem_raise (st : store) (n : loc) (i : pyobj) (e : exn) :
  typed_cardinality i = raise e -> __getitem__ n i st = (raise e, st).
Proof. intros Hi. unfold __getitem__, bind, lift. rewrite Hi. reflexivity. Qed.

(** X8. An index that gives no cardinality gives no node: the store is
    left as it is and the error is the one of the index, which is the
    [TypeError] of [__getitem__] for [None], a [str] or a builtin, and
    the error of the [Cardinality] construction for a slice. *)
Theorem getitem_failure (st : store) (n : loc) (i : pyobj) (e : exn) :
  typed_cardinality i = raise e ->
  __getitem__ n i st = (raise e, st) /\
  ((i = PyNone \/ (exists s, i = PyStr s) \/ (exists f, i = PyBuiltin f)) ->
   e = TypeError type_cardinality) /\
  (forall a b s, i = PySlice a b s -> CardinalityImpl.__init__ [a; b; s] = raise e).
Proof.
  intros Hi. split; [| split].
  - exact (getitem_raise st n i e Hi).
  - intros [-> | [[s ->] | [f ->]]]; cbn in Hi; unfold raise in Hi; congruence.
  - intros a b s ->. exact Hi.
Qed.

(** [a[5:3]] and [a["x"]] on the leaf "A" of [three_leaves]. *)
Lemma getitem_failure_witness :
  __getitem__ 2%nat (PySlice (PyInt 5) (PyInt 3) PyNone) three_leaves
  = (raise RangeError, three_leaves) /\
  __getitem__ 2%nat (PyStr "x") three_leaves
  = (raise (TypeError type_cardinality), three_leaves).
Proof.
  split.
  - exact (proj1 (getitem_failure three_leaves 2%nat
                    (PySlice (PyInt 5) (PyInt 3) PyNone) RangeError eq_refl)).
  - exact (proj1 (getitem_failure three_leaves 2%nat (PyStr "x") _ eq_refl)).
Defined.

(** X9. Relabelling twice keeps the last label only; relabelling with the
    label the node has changes nothing; so giving a node its former
    label back restores the store. *)
Theorem as_twice (st : store) (n : loc) (o : Ezre) (l1 l2 : label_arg) :
  objects st !! n = Some o ->
  (do _ <- as_ n l1; as_ n l2) st = as_ n l2 st /\
  as_ n (LLabel (_label o)) st = (OK n, st) /\
  (do _ <- as_ n l1; as_ n (LLabel (_label o))) st = (OK n, st).
Proof.
  intros Hn.
  pose proof (lookup_lt_Some _ _ _ Hn) as Hlt.
  assert (Hid : as_ n (LLabel (_label o)) st = (OK n, st)).
  { rewrite (as_run st n o _ Hn). f_equal. destruct st as [objs inst]. cbn in *.
    f_equal. destruct o. cbn. apply list_insert_id. exact Hn. }
  assert (H12 : forall l, (do _ <- as_ n l1; as_ n l) st = as_ n l st).
  { intros l. rewrite (bind_OK _ _ _ _ _ (as_run st n o l1 Hn)).
    erewrite as_run by (cbn [objects]; apply list_lookup_insert_eq; exact Hlt).
    rewrite (as_run st n o l Hn). cbn [objects _instances _id _expr _cardinality _re].
    now rewrite list_insert_insert_eq. }
  split; [apply H12 |]. split; [exact Hid |]. now rewrite H12.
Qed.

(** Relabelling the leaf "A" of [three_leaves] and back. *)
Lemma as_twice_witness :
  (do _ <- as_ 2%nat (LStr "a"); as_ 2%nat (LLabel (Var "#2"))) three_leaves
  = (OK 2%nat, three_leaves).
Proof.
  exact (proj2 (proj2 (as_twice three_leaves 2%nat _ (LStr "a") (LStr "a") eq_refl))).
Defined.

(** Computations that change no object. *)
Lemma grows_refl st : grows st st.
Proof. intros l o H. exact H. Qed.

Lemma grows_trans st1 st2 st3 : grows st1 st2 -> grows st2 st3 -> grows st1 st3.
Proof. intros H12 H23 l o H. apply H23, H12, H. Qed.

Lemma growing_ret {A} (a : A) : growing (ret a).
Proof. intros st. apply grows_refl. Qed.

Lemma growing_lift {A} (r : result A) : growing (lift r).
Proof. intros st. apply grows_refl. Qed.

Lemma growing_bind {A B} (m : M A) (k : A -> M B) :
  growing m -> (forall a, growing (k a)) -> growing (bind m k).
Proof.
  intros Hm Hk st. unfold bind. specialize (Hm st).
  destruct (m st) as [[e | a] st']; cbn in *; [exact Hm |].
  eapply grows_trans; [exact Hm | apply Hk].
Qed.

Lemma growing_deref l : growing (deref l).
Proof. intros st. unfold deref. destruct (objects st !! l); apply grows_refl. Qed.

Lemma growing_mapM {A B} (f : A -> M B) items :
  (forall x, growing (f x)) -> growing (mapM f items).
Proof.
  intros Hf. induction items as [| x items IH]; cbn [mapM].
  - apply growing_ret.
  - apply growing_bind; [apply Hf |]. intros y.
    apply growing_bind; [exact IH |]. intros ys. apply growing_ret.
Qed.

Lemma growing__init__ e l k : growing (__init__ e l k).
Proof. intros st i o H. cbn. apply lookup_old, H. Qed.

Create HintDb growing.

#[local] Hint Resolve growing_ret growing_lift growing_deref growing__init__ : growing.

Ltac growing :=
  repeat first [ apply growing_bind; [| intros ?]
               | apply growing_mapM; intros ?
               | solve [auto with growing] ].

(** X10. No call but [as_] changes an object that exists: whatever the
    call returns or raises, every object of the store is afterwards what
    it was, label included. *)
Theorem calls_change_no_object (c : call) (st : store) (l : loc) (o : Ezre) :
  (forall n lbl, c <> call_as_ n lbl) ->
  objects st !! l = Some o ->
  objects (snd (exec c st)) !! l = Some o.
Proof.
  intros Hc. revert l o. change (grows st (snd (exec c st))). revert st.
  change (growing (exec c)).
  destruct c; cbn [exec];
    unfold from_sequence, group, __or__, __radd__, __add__, __getitem__;
    unfold from_str, __add__, And__init__, Or__init__, label, expr, get_re.
  - growing.
  - growing.
  - exfalso. eapply Hc. reflexivity.
  - growing.
  - growing.
  - growing.
  - growing.
  - growing. destruct (CardinalityImpl.__eq__ _ _); growing.
Qed.

(** The leaf "B" of [three_leaves] after [a | c] on its neighbours. *)
Lemma calls_change_no_object_witness :
  objects (snd (exec (call_or 2%nat 4%nat) three_leaves)) !! 3%nat
  = objects three_leaves !! 3%nat.
Proof.
  refine (calls_change_no_object (call_or 2%nat 4%nat) three_leaves 3%nat _ _ eq_refl).
  intros n lbl. discriminate.
Defined.

(** X11. The labels of the composed nodes: [a + b] shows the two labels one
    after the other, [a | b] shows them between parentheses around "|",
    [n[c]] for a cardinality that is not exactly one shows the label of
    [n] followed by the quantifier, and a node built without a label (or
    with the empty one) shows "#" and its id. *)
Theorem label_composition (st : store) (a b : loc) (oa ob : Ezre)
    (i : pyobj) (c : Cardinality) (s : string) :
  objects st !! a = Some oa -> objects st !! b = Some ob ->
  typed_cardinality i = OK c ->
  CardinalityImpl.__eq__ c (PyCardinality CARDINALITY.One) = false ->
  shown (__add__ a (Some b)) st
  = Some (LabelImpl.__repr__ (_label oa) +:+ LabelImpl.__repr__ (_label ob)) /\
  shown (__or__ a b) st
  = Some ("(" +:+ LabelImpl.__repr__ (_label oa) +:+ "|"
              +:+ LabelImpl.__repr__ (_label ob) +:+ ")") /\
  shown (__getitem__ a i) st = Some (LabelImpl.__repr__ (_label oa) +:+ _str c) /\
  shown (from_str s None None) st
  = Some ("#" +:+ str_int (Z.of_nat (size (_instances st)))) /\
  shown (from_str s (Some (LStr "")) None) st = shown (from_str s None None) st.
Proof.
  intros Ha Hb Hi Hc. unfold shown.
  rewrite (add_run st a (Some b) _ _ Ha Hb), (or_run st a b _ _ Ha Hb),
    (getitem_run_other st a oa i c Hi Hc Ha).
  unfold from_str, __init__, OK, repr_of. cbn [objects]. rewrite !lookup_new.
  cbn [fmap option_fmap option_map compose _label].
  split; [reflexivity |]. split; [| split; [reflexivity |]; split; reflexivity].
  f_equal. cbn [LabelImpl.__repr__ List.map join String.concat length Nat.ltb Nat.leb].
  now rewrite !append_assoc_r.
Qed.

(** The labels of the leaves "A" and "B" of [three_leaves], composed. *)
Lemma label_composition_witness :
  shown (__or__ 2%nat 3%nat) three_leaves = Some "(#2|#3)" /\
  shown (__getitem__ 2%nat (PySlice PyNone (PyInt 2) PyNone)) three_leaves = Some "#2{,2}".
Proof.
  destruct (label_composition three_leaves 2%nat 3%nat _ _
              (PySlice PyNone (PyInt 2) PyNone) _ "x" eq_refl eq_refl eq_refl eq_refl)
    as (_ & H1 & H2 & _).
  split; [exact H1 | exact H2].
Defined.

End EzreMore.

(** ** The invariants of the store *)

Section StoreInvariants.
Import Builtins EzreImpl.

Lemma extends_re_of st st' i t : extends st st' -> re_of st i = Some t -> re_of st' i = Some t.
Proof.
  intros H Hi. apply re_of_Some in Hi as (o & Ho & <-).
  destruct (H _ _ Ho) as (o' & Ho' & _ & _ & _ & Hre).
  rewrite (re_of_lookup _ _ _ Ho'). now rewrite Hre.
Qed.

Lemma expr_consistent_mono st st' l l' e :
  extends st st' -> (l <= l')%nat ->
  expr_consistent st l e -> expr_consistent st' l' e.
Proof.
  intros Hext Hl. destruct e as [s | items r | items r]; cbn; [trivial | |];
    intros (Hlt & res & Hres & ->); (split; [| exists res; split; [| reflexivity]]);
    try (eapply Forall_impl; [exact Hlt | cbn; intros; lia]);
    (eapply Forall2_impl; [exact Hres | cbn; intros; eapply extends_re_of; eassumption]).
Qed.

Lemma good__init__ e l k st :
  good st -> expr_consistent st (length (objects st)) e -> good (snd (__init__ e l k st)).
Proof.
  intros [Hsc (Hsize & Hreg & Hid)] He.
  pose proof (preserving__init__ e l k st) as Hext.
  split; [| split; [| split]].
  - intros i o Hi. cbn [__init__ snd objects] in Hi.
    destruct (decide (i < length (objects st))%nat) as [Hlt | Hge].
    + rewrite lookup_app_l in Hi by exact Hlt.
      destruct (Hsc _ _ Hi) as [Hre Hex]. split; [exact Hre |].
      eapply expr_consistent_mono; [exact Hext | reflexivity | exact Hex].
    + rewrite lookup_app_r in Hi by lia.
      destruct (i - length (objects st))%nat as [| j] eqn:Ej; [| destruct j; discriminate].
      cbn in Hi. injection Hi as <-. cbn [_re _expr _cardinality].
      split; [reflexivity |].
      apply (expr_consistent_mono st _ (length (objects st)) i); [exact Hext | lia | exact He].
  - cbn [__init__ snd objects _instances]. rewrite length_app. cbn [length].
    rewrite map_size_insert_None; [lia |].
    rewrite Hreg. rewrite decide_False by lia. reflexivity.
  - intros j. cbn [__init__ snd objects _instances]. rewrite length_app. cbn [length].
    rewrite Hsize. destruct (decide (length (objects st) = j)) as [<- | Hne].
    + rewrite lookup_insert_eq. rewrite decide_True by lia. reflexivity.
    + rewrite lookup_insert_ne by exact Hne. rewrite Hreg.
      destruct (decide (j < length (objects st))%nat);
        [rewrite decide_True by lia | rewrite decide_False by lia]; reflexivity.
  - intros i o Hi. cbn [__init__ snd objects] in Hi.
    destruct (decide (i < length (objects st))%nat) as [Hlt | Hge].
    + rewrite lookup_app_l in Hi by exact Hlt. exact (Hid _ _ Hi).
    + rewrite lookup_app_r in Hi by lia.
      destruct (i - length (objects st))%nat as [| j] eqn:Ej; [| destruct j; discriminate].
      cbn in Hi. injection Hi as <-. cbn [_id]. lia.
Qed.

Lemma good_as_ n lbl st : good st -> good (snd (as_ n lbl st)).
Proof.
  intros Hg. pose proof (preserving_as_ n lbl st) as Hext. unfold as_ in *.
  destruct (objects st !! n) as [o |] eqn:Hn; [| exact Hg].
  destruct Hg as [Hsc (Hsize & Hreg & Hid)]. cbn [snd] in *.
  assert (Hback : forall i x,
             <[n := {| _id := _id o; _label := as_label lbl; _expr := _expr o;
                       _cardinality := _cardinality o; _re := _re o |}]> (objects st) !! i
             = Some x ->
             exists y, objects st !! i = Some y /\ same_but_label y x).
  { intros i x Hi. destruct (decide (n = i)) as [<- | Hne].
    - rewrite list_lookup_insert_eq in Hi by (eapply lookup_lt_Some; exact Hn).
      injection Hi as <-. exists o. split; [exact Hn | repeat split].
    - rewrite list_lookup_insert_ne in Hi by exact Hne.
      exists x. split; [exact Hi | apply same_but_label_refl]. }
  split; [| split; [| split]].
  - intros i x Hi. cbn [objects] in Hi.
    destruct (Hback _ _ Hi) as (y & Hy & Ei & Ee & Ec & Er).
    destruct (Hsc _ _ Hy) as [Hre Hex]. rewrite <- Er, <- Ee, <- Ec.
    split; [exact Hre |].
    eapply expr_consistent_mono; [exact Hext | reflexivity | exact Hex].
  - cbn [objects _instances]. now rewrite length_insert.
  - intros k. cbn [objects _instances]. rewrite length_insert. apply Hreg.
  - intros i x Hi. cbn [objects] in Hi.
    destruct (Hback _ _ Hi) as (y & Hy & Ei & _). rewrite <- Ei. exact (Hid _ _ Hy).
Qed.

(** The rules of [hoare]. *)
Lemma hoare_ret {A} (P : store -> Prop) (a : A) :
  hoare P (ret a) (fun b st => b = a /\ P st).
Proof. intros st Hg HP. split; [exact Hg |]. intros b [= <-]. auto. Qed.

Lemma hoare_lift {A} (P : store -> Prop) (r : result A) :
  hoare P (lift r) (fun a st => r = inr a /\ P st).
Proof. intros st Hg HP. split; [exact Hg |]. cbn. intros a ->. auto. Qed.

Lemma hoare_bind {A B} P (m : M A) Q (k : A -> M B) R :
  hoare P m Q -> (forall a, hoare (Q a) (k a) R) -> hoare P (bind m k) R.
Proof.
  intros Hm Hk st Hg HP. destruct (Hm st Hg HP) as [Hg' HQ]. unfold bind.
  destruct (m st) as [[e | a] st']; cbn [fst snd] in *.
  - split; [exact Hg' | discriminate].
  - exact (Hk a st' Hg' (HQ a eq_refl)).
Qed.

Lemma hoare_label P l : hoare P (label l) (fun _ st => P st).
Proof.
  intros st Hg HP. unfold label, bind, deref, ret.
  destruct (objects st !! l); cbn; (split; [exact Hg |]); [intros; exact HP | discriminate].
Qed.

Lemma hoare_expr P l :
  hoare P (expr l) (fun e st => P st /\ expr_consistent st (length (objects st)) e).
Proof.
  intros st Hg HP. unfold expr, bind, deref, ret.
  destruct (objects st !! l) as [o |] eqn:Hl; cbn; (split; [exact Hg |]); [| discriminate].
  intros e [= <-]. split; [exact HP |].
  destruct Hg as [Hsc _]. destruct (Hsc _ _ Hl) as [_ Hex].
  eapply expr_consistent_mono; [apply extends_refl | | exact Hex].
  apply Nat.lt_le_incl. eapply lookup_lt_Some. exact Hl.
Qed.

Lemma bind_inl {A B} (m : M A) (k : A -> M B) st e st' :
  m st = (raise e, st') -> bind m k st = (inl e, st').
Proof. unfold bind, raise. intros ->. reflexivity. Qed.

(** [map(get_re, items)] reads the texts of nodes. *)
Lemma mapM_get_re_inv items st :
  snd (mapM get_re items st) = st /\
  forall res, fst (mapM get_re items st) = inr res ->
              Forall2 (fun i t => re_of st i = Some t) items res.
Proof.
  induction items as [| i items [IH1 IH2]]; cbn [mapM].
  - split; [reflexivity |]. intros res [= <-]. constructor.
  - destruct (objects st !! i) as [o |] eqn:Hi.
    + rewrite (bind_OK _ _ _ _ _ (get_re_Some _ _ _ Hi)). unfold bind.
      destruct (mapM get_re items st) as [[e | res'] st'] eqn:Hm;
        cbn [fst snd] in *; subst st'.
      * split; [reflexivity | discriminate].
      * split; [reflexivity |]. unfold ret, OK. cbn [fst]. intros res [= <-].
        constructor; [apply re_of_lookup, Hi | apply IH2; reflexivity].
    + assert (Hd : get_re i st = (raise DanglingReference, st))
        by (unfold get_re, bind, deref; rewrite Hi; reflexivity).
      rewrite (bind_inl _ _ _ _ _ Hd). split; [reflexivity | discriminate].
Qed.

Lemma items_are_nodes st items res :
  Forall2 (fun i t => re_of st i = Some t) items res ->
  Forall (fun i => (i < length (objects st))%nat) items.
Proof.
  induction 1 as [| i t items res Hi _ IH]; constructor; [| exact IH].
  apply re_of_Some in Hi as (o & Ho & _). eapply lookup_lt_Some. exact Ho.
Qed.

Lemma hoare_And__init__ P items :
  hoare P (And__init__ items)
        (fun e st => P st /\ expr_consistent st (length (objects st)) e).
Proof.
  intros st Hg HP. unfold And__init__, bind.
  destruct (mapM_get_re_inv items st) as [Hs Hres].
  destruct (mapM get_re items st) as [[e | res] st']; cbn [fst snd] in *; subst st';
    (split; [exact Hg |]); [discriminate |].
  intros e [= <-]. split; [exact HP |]. specialize (Hres res eq_refl). cbn.
  split; [eapply items_are_nodes; exact Hres | exists res; auto].
Qed.

Lemma hoare_Or__init__ P items :
  hoare P (Or__init__ items)
        (fun e st => P st /\ expr_consistent st (length (objects st)) e).
Proof.
  intros st Hg HP. unfold Or__init__, bind.
  destruct (mapM_get_re_inv items st) as [Hs Hres].
  destruct (mapM get_re items st) as [[e | res] st']; cbn [fst snd] in *; subst st';
    (split; [exact Hg |]); [discriminate |].
  intros e [= <-]. split; [exact HP |]. specialize (Hres res eq_refl). cbn.
  split; [eapply items_are_nodes; exact Hres | exists res; auto].
Qed.

Lemma hoare__init__ (P : store -> Prop) e l k :
  hoare (fun st => P st /\ expr_consistent st (length (objects st)) e) (__init__ e l k)
        (fun _ _ => True).
Proof. intros st Hg [_ He]. split; [apply good__init__; assumption | trivial]. Qed.

Lemma hoare_leaf (P : store -> Prop) s l k :
  hoare P (__init__ (Str s) l k) (fun _ _ => True).
Proof. intros st Hg _. split; [apply good__init__; [assumption | exact I] | trivial]. Qed.

Lemma hoare_done {A} (P : store -> Prop) (a : A) : hoare P (ret a) (fun _ _ => True).
Proof. intros st Hg _. split; [exact Hg | trivial]. Qed.

Lemma hoare_as_ n lbl : hoare (fun _ => True) (as_ n lbl) (fun _ _ => True).
Proof. intros st Hg _. split; [apply good_as_; exact Hg | trivial]. Qed.

Lemma hoare_mapM_from_str texts :
  hoare (fun _ => True) (mapM (fun s => from_str s None None) texts) (fun _ _ => True).
Proof.
  induction texts as [| s texts IH]; cbn [mapM].
  - apply hoare_done.
  - eapply hoare_bind; [apply hoare_leaf |]. intros y.
    eapply hoare_bind; [exact IH |]. intros ys. apply hoare_done.
Qed.

(** Every call keeps the store good, whatever it is made on. *)
Lemma hoare_exec c : hoare (fun _ => True) (exec c) (fun _ _ => True).
Proof.
  destruct c; cbn [exec].
  - apply hoare_leaf.
  - unfold from_sequence. eapply hoare_bind; [apply hoare_mapM_from_str |]. intros items.
    eapply hoare_bind; [apply hoare_Or__init__ |]. intros e. apply hoare__init__.
  - apply hoare_as_.
  - unfold group, from_str.
    eapply hoare_bind; [apply hoare_leaf |]. intros start0.
    eapply hoare_bind; [apply hoare_leaf |]. intros end_.
    eapply hoare_bind; [apply hoare_And__init__ |]. intros e.
    eapply hoare_bind; [apply hoare_label |]. intros l. apply hoare__init__.
  - unfold __or__.
    eapply hoare_bind; [apply hoare_Or__init__ |]. intros e.
    eapply hoare_bind; [apply hoare_label |]. intros l1.
    eapply hoare_bind; [apply hoare_label |]. intros l2. apply hoare__init__.
  - unfold __add__.
    eapply hoare_bind; [apply hoare_And__init__ |]. intros e.
    eapply hoare_bind; [apply hoare_label |]. intros l1.
    eapply hoare_bind; [apply hoare_label |]. intros l2. apply hoare__init__.
  - unfold __radd__, __add__.
    eapply hoare_bind; [apply hoare_And__init__ |]. intros e.
    eapply hoare_bind; [apply hoare_label |]. intros l1.
    eapply hoare_bind; [apply hoare_label |]. intros l2. apply hoare__init__.
  - unfold __getitem__.
    eapply hoare_bind; [apply hoare_lift |]. intros k.
    destruct (CardinalityImpl.__eq__ k (PyCardinality CARDINALITY.One)).
    + apply hoare_done.
    + eapply hoare_bind; [apply hoare_expr |]. intros e.
      eapply hoare_bind; [apply hoare_label |]. intros l. apply hoare__init__.
Qed.

Lemma module_loaded_good : good module_loaded.
Proof.
  assert (H0 : good empty_store).
  { split; [| split; [| split]].
    - intros l o H. cbn in H. rewrite lookup_nil in H. discriminate.
    - reflexivity.
    - intros k. cbn. rewrite lookup_empty. rewrite decide_False by lia. reflexivity.
    - intros l o H. cbn in H. rewrite lookup_nil in H. discriminate. }
  unfold module_loaded, load_module.
  refine (proj1 (hoare_bind (fun _ => True) _ (fun _ _ => True) _ (fun _ _ => True) _ _
                   empty_store H0 I)).
  - apply hoare_leaf.
  - intros _. apply hoare_leaf.
Qed.

Lemma reachable_good st : reachable st -> good st.
Proof.
  induction 1 as [| st c _ IH _].
  - apply module_loaded_good.
  - exact (proj1 (hoare_exec c st IH I)).
Qed.

Lemma three_leaves_reachable : reachable three_leaves.
Proof.
  apply (reachable_call _ (call_from_str "C" None None)); [| exact I].
  apply (reachable_call _ (call_from_str "B" None None)); [| exact I].
  apply (reachable_call _ (call_from_str "A" None None)); [| exact I].
  apply reachable_loaded.
Qed.

(** X12. In every store of a program the text of a node is never stale: it
    is the text of its [expr] followed by the quantifier of its
    cardinality; the items of an [And] or an [Or] are nodes built before
    the node that holds it; and the text that the [And] or the [Or] keeps
    is the texts that its items have now, joined (by "|" and between
    parentheses for an [Or] of more than one item). *)
Theorem texts_never_stale (st : store) (l : loc) (o : Ezre) :
  reachable st -> objects st !! l = Some o ->
  _re o = expr_re (_expr o) +:+ _str (_cardinality o) /\
  (forall items r, _expr o = And items r ->
     Forall (fun i => (i < l)%nat) items /\
     exists res, Forall2 (fun i t => re_of st i = Some t) items res /\ r = join "" res) /\
  (forall items r, _expr o = Or items r ->
     Forall (fun i => (i < l)%nat) items /\
     exists res, Forall2 (fun i t => re_of st i = Some t) items res /\
                 r = if (1 <? length items)%nat then "(" +:+ join "|" res +:+ ")"
                     else join "|" res).
Proof.
  intros Hst Hl. destruct (reachable_good st Hst) as [Hsc _].
  destruct (Hsc _ _ Hl) as [Hre Hex]. split; [exact Hre |].
  split; intros items r He; rewrite He in Hex; exact Hex.
Qed.

(** The node [(a | b)] built on [three_leaves] and then relabelled. *)
Lemma texts_never_stale_witness :
  let st := snd (exec (call_as_ 5%nat (LStr "ab"))
                   (snd (exec (call_or 2%nat 3%nat) three_leaves))) in
  reachable st /\
  exists o, objects st !! 5%nat = Some o /\ _expr o = Or [2%nat; 3%nat] "(A|B)" /\
            Forall2 (fun i t => re_of st i = Some t) [2%nat; 3%nat] ["A"; "B"] /\
            _re o = "(A|B)".
Proof.
  intros st.
  assert (R : reachable st).
  { subst st.
    apply (reachable_call _ (call_as_ 5%nat (LStr "ab"))); [| cbv; lia].
    apply (reachable_call _ (call_or 2%nat 3%nat)); [| cbv; lia].
    apply three_leaves_reachable. }
  split; [exact R |]. eexists. split; [reflexivity |].
  destruct (texts_never_stale st 5%nat _ R eq_refl) as (H1 & _ & H3).
  split; [reflexivity |]. split; [repeat constructor | exact H1].
Defined.

(** X13. While the program keeps its nodes, the node built after [l]
    others has the id [l], the registry has as many entries as there are
    nodes and maps every id to its node, and two nodes never have the
    same id. *)
Theorem ids_are_positions (st : store) (l l' : loc) (o o' : Ezre) :
  reachable st -> objects st !! l = Some o -> objects st !! l' = Some o' ->
  _id o = l /\
  _instances st !! _id o = Some l /\
  size (_instances st) = length (objects st) /\
  (_id o = _id o' -> l = l').
Proof.
  intros Hst Hl Hl'. destruct (reachable_good st Hst) as [_ (Hsize & Hreg & Hid)].
  pose proof (Hid _ _ Hl) as E. pose proof (Hid _ _ Hl') as E'.
  split; [exact E |]. split; [| split; [exact Hsize | congruence]].
  rewrite E, Hreg. rewrite decide_True; [reflexivity |].
  eapply lookup_lt_Some. exact Hl.
Qed.

(** The leaves "A" and "C" of [three_leaves]. *)
Lemma ids_are_positions_witness :
  reachable three_leaves /\
  exists o o', objects three_leaves !! 2%nat = Some o /\
               objects three_leaves !! 4%nat = Some o' /\
               _id o = 2%nat /\ _id o <> _id o'.
Proof.
  split; [exact three_leaves_reachable |]. eexists _, _.
  split; [reflexivity |]. split; [reflexivity |].
  destruct (ids_are_positions three_leaves 2%nat 4%nat _ _ three_leaves_reachable
              eq_refl eq_refl) as (H1 & _ & _ & H4).
  split; [exact H1 |]. intros E. specialize (H4 E). discriminate.
Defined.



End StoreInvariants.

(** ** from_sequence: the input as a set *)

Section FromSequenceMore.
Import Builtins EzreImpl.

Lemma special_backslash : bool_decide ("\"%char ∈ re._special_chars) = true.
Proof. vm_compute. reflexivity. Qed.

(** [re.escape] gives different texts to different strings. *)
Lemma escape_inj (s1 s2 : string) : re.escape s1 = re.escape s2 -> s1 = s2.
Proof.
  revert s2. induction s1 as [| c1 s1 IH]; intros [| c2 s2]; cbn [re.escape].
  - reflexivity.
  - destruct (bool_decide (c2 ∈ re._special_chars)); discriminate.
  - destruct (bool_decide (c1 ∈ re._special_chars)); discriminate.
  - destruct (bool_decide (c1 ∈ re._special_chars)) eqn:E1,
             (bool_decide (c2 ∈ re._special_chars)) eqn:E2.
    + intros [= -> H]. f_equal. apply IH, H.
    + intros [= <- _]. rewrite special_backslash in E2. discriminate.
    + intros [= -> _]. rewrite special_backslash in E1. discriminate.
    + intros [= -> H]. f_equal. apply IH, H.
Qed.

Lemma remove_dups_map_length (l : list string) :
  length (remove_dups (List.map re.escape l)) = length (remove_dups l).
Proof.
  induction l as [| x l IH]; [reflexivity |]. cbn [List.map remove_dups].
  assert (Hin : re.escape x ∈ List.map re.escape l <-> x ∈ l).
  { rewrite !list_elem_of_In, in_map_iff. split.
    - intros (y & Hy & Hin). apply escape_inj in Hy. now subst y.
    - intros Hx. exists x. auto. }
  destruct (decide_rel elem_of (re.escape x) (List.map re.escape l)) as [H | H],
           (decide_rel elem_of x l) as [H' | H']; cbn [length]; try tauto; lia.
Qed.

(** X14. [from_sequence] reads its input as a set: two sequences with the
    same strings, in any order and any number of times, give the same
    node and the same store; and the [Or] has one item for each distinct
    string of the input. *)
Theorem from_sequence_of_set (st : store) (expr expr' : list string)
    (label : option label_arg) (cardinality : option Cardinality) :
  (forall x, x ∈ expr <-> x ∈ expr') ->
  from_sequence expr label cardinality st = from_sequence expr' label cardinality st /\
  exists r st' o items re_,
    from_sequence expr label cardinality st = (OK r, st') /\
    objects st' !! r = Some o /\ _expr o = Or items re_ /\
    length items = length (remove_dups expr).
Proof.
  intros Hel. split.
  - unfold from_sequence.
    replace (Sorting.sorted string_key (Sorting.set (List.map re.escape expr')))
      with (Sorting.sorted string_key (Sorting.set (List.map re.escape expr)));
      [reflexivity |].
    apply sorted_enumeration; try apply NoDup_remove_dups.
    intros s. unfold Sorting.set. rewrite !elem_of_remove_dups, !list_elem_of_In, !in_map_iff.
    split; intros (x & Hx & Hin); exists x; (split; [exact Hx |]);
      apply list_elem_of_In, Hel, list_elem_of_In, Hin.
  - destruct (from_sequence_run expr label cardinality st)
      as (r & st' & o & items & Hrun & Ho & He & _ & _ & Hl).
    eexists r, st', o, items, _. split; [exact Hrun |]. split; [exact Ho |].
    split; [exact He |].
    rewrite (Forall2_length _ _ _ Hl), sorted_Permutation.
    apply remove_dups_map_length.
Qed.

(** ["a", "b", "a"] and ["b", "a"]. *)
Lemma from_sequence_of_set_witness :
  (forall x, x ∈ ["a"; "b"; "a"] <-> x ∈ ["b"; "a"]) /\
  from_sequence ["a"; "b"; "a"] None None module_loaded
  = from_sequence ["b"; "a"] None None module_loaded.
Proof.
  assert (H : forall x, x ∈ ["a"; "b"; "a"] <-> x ∈ ["b"; "a"]).
  { intros x. rewrite !elem_of_cons, !elem_of_nil. tauto. }
  split; [exact H |].
  exact (proj1 (from_sequence_of_set module_loaded _ _ None None H)).
Defined.

Lemma length_append (s u : string) :
  String.length (s +:+ u) = (String.length s + String.length u)%nat.
Proof.
  induction s as [| c s IH]; [reflexivity |].
  rewrite append_String. cbn [String.length]. now rewrite IH.
Qed.

Lemma StronglySorted_lookup {A} (R : A -> A -> Prop) (l : list A) i j x y :
  StronglySorted R l -> (i < j)%nat -> l !! i = Some x -> l !! j = Some y -> R x y.
Proof.
  intros Hs. revert i j. induction Hs as [| a l Hs IH Ha]; intros i j Hij Hi Hj.
  - rewrite lookup_nil in Hi. discriminate.
  - destruct j as [| j]; [lia |]. cbn in Hj. destruct i as [| i].
    + cbn in Hi. injection Hi as <-. rewrite Forall_forall in Ha.
      apply Ha. eapply list_elem_of_lookup_2. exact Hj.
    + cbn in Hi. apply (IH i j); [lia | exact Hi | exact Hj].
Qed.

(** X15. No alternative of [from_sequence] is shadowed: an item never comes
    after an item whose text is a proper prefix of its own, so the first
    alternative that matches is never a shorter start of a later one. *)
Theorem from_sequence_no_shadowing (st : store) (expr : list string)
    (label : option label_arg) (cardinality : option Cardinality) :
  exists r st' o items re_,
    from_sequence expr label cardinality st = (OK r, st') /\
    objects st' !! r = Some o /\ _expr o = Or items re_ /\
    forall i j li lj s t u,
      (i < j)%nat -> items !! i = Some li -> items !! j = Some lj ->
      re_of st' li = Some s -> re_of st' lj = Some t ->
      t = s +:+ u -> u = "".
Proof.
  destruct (from_sequence_run expr label cardinality st)
    as (r & st' & o & items & Hrun & Ho & He & _ & _ & Hl).
  eexists r, st', o, items, _. split; [exact Hrun |]. split; [exact Ho |].
  split; [exact He |].
  intros i j li lj s t u Hij Hi Hj Hs Ht Hu.
  assert (Hsorted : StronglySorted longer_then_lexicographic
                      (Sorting.sorted string_key (Sorting.set (List.map re.escape expr))))
    by (apply sorted_StronglySorted, NoDup_remove_dups).
  destruct (Forall2_lookup_l _ _ _ _ _ Hl Hi) as (s' & Hs' & ol & Hol & _ & _ & Rs).
  destruct (Forall2_lookup_l _ _ _ _ _ Hl Hj) as (t' & Ht' & ol' & Hol' & _ & _ & Rt).
  rewrite (re_of_lookup _ _ _ Hol), Rs in Hs. injection Hs as ->.
  rewrite (re_of_lookup _ _ _ Hol'), Rt in Ht. injection Ht as ->.
  pose proof (StronglySorted_lookup _ _ _ _ _ _ Hsorted Hij Hs' Ht') as [Hlt | [Hlen _]];
    rewrite Hu, length_append in *.
  - lia.
  - destruct u; [reflexivity | cbn in Hlen; lia].
Qed.

End FromSequenceMore.

(** ** Label *)

Section LabelMore.
Import Builtins.

(** X16. The text of a [Label]: [a + b] shows [a] then [b], [a | b] shows
    them between parentheses around "|"; so [+] is associative on what is
    shown, and [|] nests its parentheses to the left. *)
Theorem Label_repr_composition (a b c : Label) :
  LabelImpl.__repr__ (LabelImpl.__add__ a b)
  = LabelImpl.__repr__ a +:+ LabelImpl.__repr__ b /\
  LabelImpl.__repr__ (LabelImpl.__or__ a b)
  = "(" +:+ LabelImpl.__repr__ a +:+ "|" +:+ LabelImpl.__repr__ b +:+ ")" /\
  LabelImpl.__repr__ (LabelImpl.__add__ (LabelImpl.__add__ a b) c)
  = LabelImpl.__repr__ (LabelImpl.__add__ a (LabelImpl.__add__ b c)) /\
  LabelImpl.__repr__ (LabelImpl.__or__ (LabelImpl.__or__ a b) c)
  = "((" +:+ LabelImpl.__repr__ a +:+ "|" +:+ LabelImpl.__repr__ b +:+ ")|"
         +:+ LabelImpl.__repr__ c +:+ ")".
Proof.
  assert (Hadd : forall x y, LabelImpl.__repr__ (LabelImpl.__add__ x y)
                             = LabelImpl.__repr__ x +:+ LabelImpl.__repr__ y)
    by reflexivity.
  assert (Hor : forall x y, LabelImpl.__repr__ (LabelImpl.__or__ x y)
                            = "(" +:+ LabelImpl.__repr__ x +:+ "|"
                                  +:+ LabelImpl.__repr__ y +:+ ")").
  { intros x y. unfold LabelImpl.__or__. cbn [LabelImpl.__repr__ List.map length Nat.ltb Nat.leb].
    cbn [join String.concat]. now rewrite !append_assoc_r. }
  split; [apply Hadd |]. split; [apply Hor |]. split.
  - rewrite !Hadd. apply append_assoc_r.
  - rewrite !Hor. rewrite !append_assoc_r. reflexivity.
Qed.

End LabelMore.
